(** * deeplocalizer: the [add_border] preprocessing tool

    A shallow embedding of [source/tagger/preprocess.cpp]: the three image
    stages ([makeBorder], [localHistogramEq], [adaptiveTresholding]), the
    per-image driver [processImage], the batch loop [run] with the manifest
    writer [writeOutputPathfile], and [main].

    Path names are [std::string]s, here [list ascii]; matrices are 8-bit
    single channel [cv::Mat]s, here rows of [Z]; the file system, the two
    output streams and the function-local statics are fields of an explicit
    [World] that every effectful function passes along. *)

From Stdlib Require Import ZArith QArith Qround Qabs Lqa Ascii String List Lia.
From stdpp Require Import gmap list strings.

Local Open Scope Z_scope.

(** ** Path names ([boost::filesystem::path], version 3, POSIX separators) *)

Definition lit (s : string) : list ascii := list_ascii_of_string s.

Definition is_separator (c : ascii) : bool := bool_decide (c = "/"%char).

Definition is_dot (c : ascii) : bool := bool_decide (c = "."%char).

(** [std::string::find_last_of] / [rfind]: the last position whose
    character satisfies [P]; [None] is [npos]. *)
Fixpoint find_last (P : ascii → bool) (s : list ascii) : option nat :=
  match s with
  | [] => None
  | c :: t =>
      match find_last P t with
      | Some k => Some (S k)
      | None => if P c then Some 0%nat else None
      end
  end.

(** [std::string::find_first_of]. *)
Fixpoint find_first (P : ascii → bool) (s : list ascii) : option nat :=
  match s with
  | [] => None
  | c :: t => if P c then Some 0%nat else S <$> find_first P t
  end.

Definition sep_at (str : list ascii) (i : nat) : bool :=
  from_option is_separator false (str !! i).

(** [while (pos > 0 && is_separator(str[pos-1])) --pos;] *)
Fixpoint leftmost_sep (str : list ascii) (pos : nat) : nat :=
  match pos with
  | O => O
  | S p => if sep_at str p then leftmost_sep str p else S p
  end.

Definition is_root_separator (str : list ascii) (pos : nat) : bool :=
  let pos := leftmost_sep str pos in
  if (pos =? 0)%nat then true
  else if (pos <? 3)%nat || negb (sep_at str 0) || negb (sep_at str 1) then false
  else bool_decide ((λ k, 2 + k)%nat <$> find_first is_separator (drop 2 str) = Some pos).

(** Start of the last element of [str]; 0 when [str] itself is the
    file name (or is empty). *)
Definition filename_pos (str : list ascii) : nat :=
  let end_pos := length str in
  if (end_pos =? 2)%nat && sep_at str 0 && sep_at str 1 then 0%nat
  else if (0 <? end_pos)%nat && sep_at str (end_pos - 1) then (end_pos - 1)%nat
  else
    match find_last is_separator str with
    | None => 0%nat
    | Some pos => if (pos =? 1)%nat && sep_at str 0 then 0%nat else (pos + 1)%nat
    end.

(** [path::filename()] *)
Definition filename (p : list ascii) : list ascii :=
  let pos := filename_pos p in
  if (0 <? length p)%nat && (0 <? pos)%nat && sep_at p pos
     && negb (is_root_separator p pos)
  then lit "."
  else drop pos p.

Definition is_dot_or_dot_dot (name : list ascii) : bool :=
  bool_decide (name = lit ".") || bool_decide (name = lit "..").

(** [path::extension()]: from the last dot of the file name on; empty for
    ".", ".." and names without a dot. *)
Definition extension (p : list ascii) : list ascii :=
  let name := filename p in
  if is_dot_or_dot_dot name then []
  else
    match find_last is_dot name with
    | None => []
    | Some pos => drop pos name
    end.

(** [path::stem()]: the file name without its extension. *)
Definition stem (p : list ascii) : list ascii :=
  let name := filename p in
  if is_dot_or_dot_dot name then name
  else
    match find_last is_dot name with
    | None => name
    | Some pos => take pos name
    end.

(** [path::replace_extension()] with no new extension: erase the
    extension from the end of the path name. *)
Definition replace_extension (p : list ascii) : list ascii :=
  take (length p - length (extension p)) p.

(** [path::m_append_separator_if_needed()] *)
Definition append_separator_if_needed (p : list ascii) : list ascii :=
  match last p with
  | Some l => if is_separator l then p else p ++ lit "/"
  | None => p
  end.

(** [operator/]: append [q], after a separator when [p] is not empty, does
    not end in one and [q] does not begin with one. *)
Definition path_append (p q : list ascii) : list ascii :=
  match q with
  | [] => p
  | c :: _ => (if is_separator c then p else append_separator_if_needed p) ++ q
  end.

Infix "//" := path_append (at level 40, left associativity).

(** [io::path addWb(io::path filename)] *)
Definition addWb (filename : list ascii) : list ascii :=
  let output_path := filename in
  let extension := extension output_path in
  let output_path := replace_extension output_path in
  output_path ++ (lit "_wb" ++ extension).

(** A file name in the ordinary sense: not empty, free of separators and
    neither "." nor "..". *)
Definition is_regular_name (name : list ascii) : bool :=
  negb (bool_decide (name = [])) && forallb (λ c, negb (is_separator c)) name
  && negb (is_dot_or_dot_dot name).

(** ** Matrices ([cv::Mat], type [CV_8UC1]) *)

(** Row-major, one [Z] in [0, 255] per pixel. *)
Abbreviation Mat := (list (list Z)).

Definition pixel (m : Mat) (r c : nat) : option Z := m !! r ≫= (.!! c).

Definition is_uchar (v : Z) : Prop := 0 <= v <= 255.

(** Modelled from the spec: the OpenCV functions below are library code,
    not among the source files; they follow the spec's description of
    the stages and the library's documented behaviour.

    [saturate_cast<uchar>(int)]: clamp to [0, 255]. *)
Definition saturate_cast (v : Z) : Z :=
  if (0 <=? v) && (v <=? 255) then v else if 0 <? v then 255 else 0.

(** [cvRound]: the nearest integer, a tie going to the even one. *)
Definition cvRound (q : Q) : Z :=
  let f := Qfloor q in
  match (q - inject_Z f ?= 1 # 2)%Q with
  | Lt => f
  | Gt => f + 1
  | Eq => if Z.even f then f else f + 1
  end.

(** [cv::borderInterpolate] for [BORDER_REPLICATE]: a coordinate outside
    [0, len) is moved to the nearer end. *)
Definition borderInterpolate (p len : Z) : Z :=
  if (0 <=? p) && (p <? len) then p else if p <? 0 then 0 else len - 1.

Definition elem {A} (d : A) (l : list A) (j : Z) : A := default d (l !! Z.to_nat j).

(** The border loops of [cv::copyMakeBorder]: [before] elements in front
    of [l] and [after] behind it, each read from [l] at the position
    [borderInterpolate] gives. *)
Definition replicate_border {A} (d : A) (before after : Z) (l : list A) : list A :=
  let len := Z.of_nat (length l) in
  ((λ i, elem d l (borderInterpolate (i - before) len)) <$> seqZ 0 before)
  ++ l
  ++ ((λ i, elem d l (borderInterpolate (i + len) len)) <$> seqZ 0 after).

(** Modelled from the spec: [cv::copyMakeBorder(src, dst, top, bottom,
    left, right, BORDER_REPLICATE | BORDER_ISOLATED)], edge replication
    computed side by side. Every row gets its [left] and
    [right] border pixels, then whole bordered rows are copied above and
    below. [BORDER_ISOLATED]: [src] is the entire matrix, nothing lies
    outside it. The destination is (re)allocated to [rows + top + bottom]
    by [cols + left + right]. *)
Definition copyMakeBorder (src : Mat) (top bottom left right : Z) : Mat :=
  let inner := replicate_border 0 left right <$> src in
  replicate_border [] top bottom inner.

(** Modelled from the spec: [cv::addWeighted],
    [dst = saturate(src1*alpha + src2*beta + gamma)] pixel by pixel (the
    spec's "round(0.7 x original + 0.3 x mask)"); the weights are taken as
    exact rationals, not as the doubles of the source. *)
Definition addWeighted (src1 : Mat) (alpha : Q) (src2 : Mat) (beta gamma : Q) : Mat :=
  zip_with
    (zip_with (λ a b,
       saturate_cast (cvRound (inject_Z a * alpha + inject_Z b * beta + gamma)%Q)))
    src1 src2.

Inductive AdaptiveThresholdTypes := ADAPTIVE_THRESH_MEAN_C | ADAPTIVE_THRESH_GAUSSIAN_C.

Inductive ThresholdTypes := THRESH_BINARY | THRESH_BINARY_INV.

(** ** The file system, the streams and the statics *)

Record ImageDesc := { desc_filename : list ascii }.

Inductive File :=
  | ImageFile (m : Mat)
  | TextFile (content : list ascii).

(** What is sent to [std::cout] and [std::cerr]. *)
Inductive OutItem :=
  | OStr (s : list ascii)
  | ONum (n : nat)
  | OEndl
  | OOptions
  | OProgress (start : Z) (progress : Q).

(** The function-local statics of [adaptiveTresholding]; they are not
    [const]. *)
Record AdaptiveStatics := {
  max_value : Q;
  block_size : Z;
  weight_original : Q;
  weight_threshold : Q
}.

Definition adaptive_statics_init : AdaptiveStatics :=
  {| max_value := 255; block_size := 51;
     weight_original := 7 # 10; weight_threshold := 3 # 10 |}.

(** The states the statics can be in: not yet initialised, or holding
    their initialisers (nothing assigns to them afterwards). *)
Definition statics_ok (st : option AdaptiveStatics) : Prop :=
  st = None ∨ st = Some adaptive_statics_init.

(** What the program did to the file system, in order. *)
Inductive Event :=
  | EvCreateDirectories (p : list ascii)
  | EvDecode (d : ImageDesc)
  | EvWriteImage (p : list ascii) (ok : bool)
  | EvWritePathfile (p : list ascii) (ok : bool).

Record World := {
  files : gmap (list ascii) File;
  trace : list Event;
  cout : list OutItem;
  cerr : list OutItem;
  statics : option AdaptiveStatics;
  start_time : Z;
  clock : Z
}.

Definition set_files (f : gmap (list ascii) File) (w : World) : World :=
  {| files := f; trace := trace w; cout := cout w; cerr := cerr w;
     statics := statics w; start_time := start_time w; clock := clock w |}.

Definition set_statics (s : option AdaptiveStatics) (w : World) : World :=
  {| files := files w; trace := trace w; cout := cout w; cerr := cerr w;
     statics := s; start_time := start_time w; clock := clock w |}.

Definition set_start_time (t : Z) (w : World) : World :=
  {| files := files w; trace := trace w; cout := cout w; cerr := cerr w;
     statics := statics w; start_time := t; clock := clock w |}.

Definition print_cout (items : list OutItem) (w : World) : World :=
  {| files := files w; trace := trace w; cout := cout w ++ items; cerr := cerr w;
     statics := statics w; start_time := start_time w; clock := clock w |}.

Definition print_cerr (items : list OutItem) (w : World) : World :=
  {| files := files w; trace := trace w; cout := cout w; cerr := cerr w ++ items;
     statics := statics w; start_time := start_time w; clock := clock w |}.

Definition log_event (e : Event) (w : World) : World :=
  {| files := files w; trace := trace w ++ [e]; cout := cout w; cerr := cerr w;
     statics := statics w; start_time := start_time w; clock := clock w |}.

(** The outcomes of the image writes of a trace, in order. *)
Definition write_results (tr : list Event) : list bool :=
  omap (λ e, match e with EvWriteImage _ ok => Some ok | _ => None end) tr.

(** The output path [run] computes for a descriptor:
    [addWb(output_dir / input_path.filename())]. *)
Definition output_path (output_dir : list ascii) (desc : ImageDesc) : list ascii :=
  addWb (output_dir // filename (desc_filename desc)).

(** The events of one image that is decoded and written. *)
Definition image_events (output_dir : list ascii) (desc : ImageDesc) : list Event :=
  [EvDecode desc; EvWriteImage (output_path output_dir desc) true].

Definition write_failure (output : list ascii) : list OutItem :=
  [OStr (lit "Fail to write image : "); OStr output; OEndl].

(** [io::create_directories]: the call is recorded. *)
Definition create_directories (p : list ascii) (w : World) : World :=
  log_event (EvCreateDirectories p) w.

(** Modelled from the spec: [printProgress] (declared outside the two
    source files); "progress is reported" on the standard output. *)
Definition printProgress (start : Z) (progress : Q) (w : World) : World :=
  print_cout [OProgress start progress] w.

(** The parsed command line ([po::variables_map]); the four switches carry
    their defaults, [vm_pathfile] is empty when the option was not given. *)
Record variables_map := {
  vm_help : bool;
  vm_output_dir : option (list ascii);
  vm_output_pathfile : option (list ascii);
  vm_pathfile : list (list ascii);
  vm_border : bool;
  vm_use_hist_eq : bool;
  vm_use_threshold : bool;
  vm_binary_image : bool
}.

Definition newline : ascii := "010"%char.

Definition usage : list OutItem :=
  [OStr (lit "Usage: add_border [options] pathfile.txt "); OEndl;
   OStr (lit "    where pathfile.txt contains paths to images."); OEndl;
   OOptions; OEndl].

(** No text file appears from [f] to [f'], and no image file disappears. *)
Definition only_images_added (f f' : gmap (list ascii) File) : Prop :=
  (∀ q content, f' !! q = Some (TextFile content) → f !! q = Some (TextFile content))
  ∧ (∀ q m, f !! q = Some (ImageFile m) → ∃ m', f' !! q = Some (ImageFile m')).



(** A matrix that holds nothing but 0 and 255. *)
Definition binary_mat (m : Mat) : Prop := Forall (Forall (λ v, v = 0 ∨ v = 255)) m.

(** A matrix of [nr] rows of [nc] pixels each. *)
Definition has_shape (m : Mat) (nr nc : nat) : Prop :=
  length m = nr ∧ Forall (λ row, length row = nc) m.

(** ** Display conversion ([utils.h]) *)

(** [CV_MAKETYPE(CV_8U, cn)] for 1, 3 and 4 channels. *)
Definition CV_8UC1 : Z := 0.

Definition CV_8UC3 : Z := 16.

Definition CV_8UC4 : Z := 24.

(** What [cvMatToQImage] reads of a [cv::Mat]. *)
Record CvMat := {
  mat_type : Z;
  mat_data : list Z;
  mat_cols : Z;
  mat_rows : Z;
  mat_step : Z
}.

Inductive QImageFormat := Format_Indexed8 | Format_RGB32 | Format_RGB888.

(** The operations of Qt's [QImage] that [cvMatToQImage] uses: the
    constructor over a buffer, the default constructor (a null image),
    [rgbSwapped] and [setColorTable]. *)
Class QImageOps (QImage : Type) := {
  QImage_of_data : list Z → Z → Z → Z → QImageFormat → QImage;
  QImage_null : QImage;
  rgbSwapped : QImage → QImage;
  setColorTable : QImage → list Z → QImage
}.

(** [qRgb], [qRed], [qGreen], [qBlue], [qAlpha] of [QRgb], an unsigned
    32-bit [0xAARRGGBB]. *)
Definition qRgb (r g b : Z) : Z :=
  Z.lor (Z.shiftl 255 24)
    (Z.lor (Z.shiftl (Z.land r 255) 16)
       (Z.lor (Z.shiftl (Z.land g 255) 8) (Z.land b 255))).

Definition qRed (rgb : Z) : Z := Z.land (Z.shiftr rgb 16) 255.

Definition qGreen (rgb : Z) : Z := Z.land (Z.shiftr rgb 8) 255.

Definition qBlue (rgb : Z) : Z := Z.land rgb 255.

Definition qAlpha (rgb : Z) : Z := Z.shiftr rgb 24.

(** [for (int i = 0; i < 256; ++i) sColorTable.push_back(qRgb(i, i, i));] *)
Definition fill_color_table (sColorTable : list Z) : list Z :=
  foldl (λ table i, table ++ [qRgb i i i]) sColorTable (seqZ 0 256).

(** [inline QImage cvMatToQImage(const cv::Mat &inMat)], with the static
    [sColorTable] passed in and out and the types [qWarning] was given. *)
Definition cvMatToQImage {QImage} `{QImageOps QImage} (sColorTable : list Z)
    (inMat : CvMat) : list Z * list Z * QImage :=
  if bool_decide (mat_type inMat = CV_8UC4) then
    let image :=
      QImage_of_data (mat_data inMat) (mat_cols inMat) (mat_rows inMat)
        (mat_step inMat) Format_RGB32 in
    (sColorTable, [], image)
  else if bool_decide (mat_type inMat = CV_8UC3) then
    let image :=
      QImage_of_data (mat_data inMat) (mat_cols inMat) (mat_rows inMat)
        (mat_step inMat) Format_RGB888 in
    (sColorTable, [], rgbSwapped image)
  else if bool_decide (mat_type inMat = CV_8UC1) then
    let sColorTable :=
      if bool_decide (sColorTable = []) then fill_color_table sColorTable
      else sColorTable in
    let image :=
      QImage_of_data (mat_data inMat) (mat_cols inMat) (mat_rows inMat)
        (mat_step inMat) Format_Indexed8 in
    let image := setColorTable image sColorTable in
    (sColorTable, [], image)
  else (sColorTable, [mat_type inMat], QImage_null).

(** A stand-in for [QImage]: format, buffer and colour table of an image,
    [None] for a null one. *)
Definition SampleImage : Type := option (QImageFormat * list Z * list Z).

#[export] Instance sample_image_ops : QImageOps SampleImage := {|
  QImage_of_data data width height bytesPerLine format := Some (format, data, []);
  QImage_null := None;
  rgbSwapped image := image;
  setColorTable image table :=
    match image with
    | Some (format, data, _) => Some (format, data, table)
    | None => None
    end
|}.

Definition sample_gray_mat : CvMat :=
  {| mat_type := CV_8UC1; mat_data := [10; 200; 30; 40];
     mat_cols := 2; mat_rows := 2; mat_step := 2 |}.

(** ** A sample batch

    Three descriptors, a 2 x 2 image behind each of them, a flat local mean,
    and a file system that refuses the second output. *)

Definition sample_mat : Mat := [[10; 200]; [30; 40]].

Definition sample_mean (method : AdaptiveThresholdTypes) (blockSize : Z) (m : Mat) : Mat :=
  (λ row : list Z, (λ _ : Z, 100) <$> row) <$> m.

Definition sample_clahe (clipLimit : Z) (tileGridSize : Z * Z) (m : Mat) : Mat := m.

Definition sample_load (f : gmap (list ascii) File) (d : ImageDesc) : Mat := sample_mat.

Definition sample_descs : list ImageDesc :=
  [{| desc_filename := lit "data/cam0/a.png" |};
   {| desc_filename := lit "data/cam0/b.png" |};
   {| desc_filename := lit "data/cam1/c.png" |}].

Definition sample_fromPathFile (f : gmap (list ascii) File) (p : list ascii)
    : list ImageDesc := sample_descs.

Definition second_write_fails (f : gmap (list ascii) File) (p : list ascii) (m : Mat)
    : bool := negb (bool_decide (p = lit "out/b_wb.png")).

Definition every_write_succeeds (f : gmap (list ascii) File) (p : list ascii) (m : Mat)
    : bool := true.

Definition every_stream_opens (f : gmap (list ascii) File) (p : list ascii) : bool := true.

(** No stream opens on a path below the directory [missing], which does
    not exist. *)
Definition missing_directory (f : gmap (list ascii) File) (p : list ascii) : bool :=
  negb (bool_decide (take 8 p = lit "missing/")).


Definition world0 : World :=
  {| files := ∅; trace := []; cout := []; cerr := []; statics := None;
     start_time := 0; clock := 0 |}.

Definition sample_vm : variables_map :=
  {| vm_help := false; vm_output_dir := Some (lit "out");
     vm_output_pathfile := None; vm_pathfile := [lit "paths.txt"];
     vm_border := true; vm_use_hist_eq := false; vm_use_threshold := false;
     vm_binary_image := true |}.

Definition no_pathfile_vm : variables_map :=
  {| vm_help := false; vm_output_dir := Some (lit "out");
     vm_output_pathfile := None; vm_pathfile := [];
     vm_border := true; vm_use_hist_eq := false; vm_use_threshold := false;
     vm_binary_image := false |}.

Definition world_with_input : World :=
  {| files := {[ lit "data/cam0/a.png" := ImageFile sample_mat ]};
     trace := []; cout := []; cerr := []; statics := None;
     start_time := 0; clock := 0 |}.

(** ** The program *)

Section Preprocess.

(** [deeplocalizer::TAG_WIDTH] and [TAG_HEIGHT] are declared in a header
    outside the two source files. *)
Variables TAG_WIDTH TAG_HEIGHT : Z.

(** The local mean taken by [cv::adaptiveThreshold] (a box or a Gaussian
    filter of the given block size, rounded to 8 bits), and the
    [cv::CLAHE::apply] of a CLAHE object with the given clip limit and tile
    grid: floating-point filters of OpenCV. *)
Variable local_mean : AdaptiveThresholdTypes → Z → Mat → Mat.
Variable CLAHE_apply : Z → Z * Z → Mat → Mat.

(** [Image(desc)], [Image::write] and [ImageDesc::fromPathFile] come from
    [Image.h]: what decoding yields, whether a write succeeds, and the
    descriptors a path file holds. *)
Variable Image_load : gmap (list ascii) File → ImageDesc → Mat.
Variable Image_write_ok : gmap (list ascii) File → list ascii → Mat → bool.

(** Whether a [std::ofstream] constructed on a path opens. *)
Variable ofstream_opens : gmap (list ascii) File → list ascii → bool.

Variable fromPathFile : gmap (list ascii) File → list ascii → list ImageDesc.

(** Modelled from the spec: [cv::adaptiveThreshold], a binary mask from a
    local threshold; every pixel is compared with its local mean minus [C],
    as the table [tab[s - m + 255]] of the library does. *)
Definition adaptiveThreshold (src : Mat) (maxValue : Q)
    (method : AdaptiveThresholdTypes) (type : ThresholdTypes)
    (blockSize : Z) (C : Q) : Mat :=
  let mean := local_mean method blockSize src in
  let imaxval := saturate_cast (cvRound maxValue) in
  let idelta := match type with
                | THRESH_BINARY => Qceiling C
                | THRESH_BINARY_INV => Qfloor C
                end in
  zip_with
    (zip_with (λ s m,
       match type with
       | THRESH_BINARY => if - idelta <? s - m then imaxval else 0
       | THRESH_BINARY_INV => if s - m <=? - idelta then imaxval else 0
       end))
    src mean.

(** Modelled from the spec: [Image::write] (in [Image.h], not among the
    source files) encodes the buffer to the given path; a successful write
    leaves the image at that path, a failed one leaves the files as they
    were. *)
Definition Image_write (output : list ascii) (mat : Mat) (w : World) : World * bool :=
  if Image_write_ok (files w) output mat
  then (log_event (EvWriteImage output true)
          (set_files (<[output := ImageFile mat]> (files w)) w), true)
  else (log_event (EvWriteImage output false) w, false).

(** [void writeOutputPathfile(io::path pathfile, output_paths)]. The
    source never tests the stream: when it does not open, every [<<] on it
    does nothing and no file is made or changed; the report on
    [std::cout] is printed all the same. *)
Definition writeOutputPathfile (pathfile : list ascii)
    (output_paths : list (list ascii)) (w : World) : World :=
  let ofs := concat ((λ path, path ++ [newline]) <$> output_paths) in
  let w :=
    if ofstream_opens (files w) pathfile
    then log_event (EvWritePathfile pathfile true)
           (set_files (<[pathfile := TextFile ofs]> (files w)) w)
    else log_event (EvWritePathfile pathfile false) w in
  print_cout
    [OEndl;
     OStr (lit "Add border to "); ONum (length output_paths);
     OStr (lit " images. Saved new images paths to: "); OEndl;
     OStr pathfile; OEndl] w.

(** [void adaptiveTresholding(cv::Mat & mat, bool use_binary_image)]; the
    statics are initialised by the first call. *)
Definition adaptiveTresholding (st : option AdaptiveStatics) (mat : Mat)
    (use_binary_image : bool) : option AdaptiveStatics * Mat :=
  let s := default adaptive_statics_init st in
  let mat_threshold :=
    adaptiveThreshold mat (max_value s) ADAPTIVE_THRESH_GAUSSIAN_C THRESH_BINARY
      (block_size s) 0 in
  (Some s,
   if use_binary_image then mat_threshold
   else addWeighted mat (weight_original s) mat_threshold (weight_threshold s) 0).

(** [void localHistogramEq(cv::Mat & mat)] *)
Definition localHistogramEq (mat : Mat) : Mat :=
  let clip_limit := 2 in
  let tile_size := (TAG_WIDTH, TAG_HEIGHT) in
  CLAHE_apply clip_limit tile_size mat.

(** [void makeBorder(cv::Mat & mat)]; C++ [/] on [int] truncates. *)
Definition makeBorder (mat : Mat) : Mat :=
  copyMakeBorder mat (TAG_HEIGHT ÷ 2) (TAG_HEIGHT ÷ 2) (TAG_WIDTH ÷ 2) (TAG_WIDTH ÷ 2).

(** [void processImage(Image & img, use_hist_eq, use_thresholding,
    use_binary_image, make_border)], on the matrix of the image. *)
Definition processImage (st : option AdaptiveStatics) (mat : Mat)
    (use_hist_eq use_thresholding use_binary_image make_border : bool)
    : option AdaptiveStatics * Mat :=
  let mat := if make_border then makeBorder mat else mat in
  let mat := if use_hist_eq then localHistogramEq mat else mat in
  if use_thresholding then adaptiveTresholding st mat use_binary_image
  else (st, mat).

(** The [for] loop of [run], from index [i] on: [descs] are the
    descriptors not yet visited, [size] is [image_descs.size()]. [None] is
    the [return 1] inside the loop. *)
Fixpoint run_loop (descs : list ImageDesc) (i size : nat) (output_dir : list ascii)
    (use_hist_eq use_thresholding use_binary_image border : bool)
    (output_paths : list (list ascii)) (w : World)
    : World * option (list (list ascii)) :=
  match descs with
  | [] => (w, Some output_paths)
  | desc :: rest =>
      let img := Image_load (files w) desc in
      let w := log_event (EvDecode desc) w in
      let '(st, img) :=
        processImage (statics w) img use_hist_eq use_thresholding use_binary_image
          border in
      let w := set_statics st w in
      let input_path := desc_filename desc in
      let output := addWb (output_dir // filename input_path) in
      let '(w, ok) := Image_write output img w in
      if negb ok then
        (print_cerr [OStr (lit "Fail to write image : "); OStr output; OEndl] w,
         None)
      else
        let output_paths := output_paths ++ [output] in
        let w :=
          printProgress (start_time w)
            (Z.of_nat (i + 1) # Pos.of_nat size) w in
        run_loop rest (S i) size output_dir use_hist_eq use_thresholding
          use_binary_image border output_paths w
  end.

(** [int run(image_descs, output_dir, output_pathfile, use_hist_eq,
    use_thresholding, use_binary_image, border)] *)
Definition run (image_descs : list ImageDesc) (output_dir : list ascii)
    (output_pathfile : option (list ascii))
    (use_hist_eq use_thresholding use_binary_image border : bool)
    (w : World) : World * Z :=
  let w := create_directories output_dir w in
  let w := set_start_time (clock w) w in
  let w := printProgress (start_time w) 0 w in
  match
    run_loop image_descs 0 (length image_descs) output_dir use_hist_eq
      use_thresholding use_binary_image border [] w
  with
  | (w, None) => (w, 1)
  | (w, Some output_paths) =>
      (writeOutputPathfile (default (output_dir // lit "images.txt") output_pathfile)
         output_paths w, 0)
  end.

(** [int main(int argc, char* argv[])], from the parsed options on. *)
Definition main (vm : variables_map) (w : World) : World * Z :=
  if vm_help vm then (print_cout usage w, 0)
  else
    match vm_pathfile vm, vm_output_dir vm with
    | pathfile :: _, Some output_dir =>
        let image_descs := fromPathFile (files w) pathfile in
        let output_pathfile := vm_output_pathfile vm in
        let use_hist_eq := vm_use_hist_eq vm in
        let use_threshold := vm_use_threshold vm in
        let use_binary_image := vm_binary_image vm in
        let use_threshold := if use_binary_image then true else use_threshold in
        let border := vm_border vm in
        let '(w, _) :=
          run image_descs output_dir output_pathfile use_hist_eq use_threshold
            use_binary_image border w in
        (w, 0)
    | _, _ =>
        (print_cout (OStr (lit "No pathfile or output_dir are given") :: OEndl :: usage) w,
         0)
    end.


(** ** Lemmas *)

(** *** Path names *)

Lemma find_last_app P a b :
  find_last P (a ++ b) =
  match find_last P b with
  | Some k => Some (length a + k)%nat
  | None => find_last P a
  end.
Proof.
  induction a as [|c a IH]; simpl.
  - by destruct (find_last P b).
  - rewrite IH. by destruct (find_last P b).
Qed.

Lemma find_last_none P s :
  forallb (λ c, negb (P c)) s = true → find_last P s = None.
Proof.
  induction s as [|c s IH]; simpl; [done|].
  intros [Hc Hs]%andb_prop. rewrite (IH Hs).
  by destruct (P c).
Qed.

Lemma sep_at_app_r pre s : sep_at (pre ++ s) (length pre) = sep_at s 0.
Proof.
  unfold sep_at. rewrite lookup_app_r by lia. by rewrite Nat.sub_diag.
Qed.

Lemma regular_name_inv name :
  is_regular_name name = true →
  name ≠ [] ∧ forallb (λ c, negb (is_separator c)) name = true
  ∧ is_dot_or_dot_dot name = false.
Proof.
  unfold is_regular_name. intros [[H1 H2]%andb_prop H3]%andb_prop.
  apply negb_true_iff in H1, H3. apply bool_decide_eq_false in H1. done.
Qed.

Lemma regular_name_head name :
  is_regular_name name = true →
  ∃ c t, name = c :: t ∧ is_separator c = false.
Proof.
  intros (Hne & Hall & _)%regular_name_inv.
  destruct name as [|c t]; [done|]. exists c, t. split; [done|].
  simpl in Hall. apply andb_prop in Hall as [Hc _]. by apply negb_true_iff in Hc.
Qed.

Lemma path_append_regular p name :
  is_regular_name name = true → p // name = append_separator_if_needed p ++ name.
Proof.
  intros (c & t & -> & Hc)%regular_name_head. unfold path_append. by rewrite Hc.
Qed.

(** What [append_separator_if_needed] returns is empty or ends in a
    separator. *)
Lemma append_separator_shape p :
  append_separator_if_needed p = []
  ∨ ∃ q s, append_separator_if_needed p = q ++ [s] ∧ is_separator s = true.
Proof.
  unfold append_separator_if_needed.
  destruct (last p) as [l|] eqn:Hl.
  - right. destruct (is_separator l) eqn:Hs.
    + apply last_Some in Hl as [q ->]. by exists q, l.
    + exists p, "/"%char. done.
  - left. by apply last_None in Hl.
Qed.

Lemma find_last_snoc P q s : P s = true → find_last P (q ++ [s]) = Some (length q).
Proof.
  intros Hs. rewrite find_last_app. simpl. rewrite Hs. f_equal. lia.
Qed.

(** The file name of a regular name behind such a prefix is the name
    itself, except behind "//", where the whole is a root name. *)
Lemma filename_prefixed pre name :
  is_regular_name name = true →
  (pre = [] ∨ ∃ q s, pre = q ++ [s] ∧ is_separator s = true) →
  filename (pre ++ name) = name
  ∨ (pre = lit "//" ∧ filename (pre ++ name) = pre ++ name).
Proof.
  intros Hreg Hpre.
  destruct (regular_name_inv _ Hreg) as (Hne & Hall & _).
  destruct (regular_name_head _ Hreg) as (c & t & Hname & Hc).
  assert (Hlast : sep_at (pre ++ name) (length (pre ++ name) - 1) = false).
  { unfold sep_at. rewrite Hname.
    destruct (last (pre ++ c :: t)) as [l|] eqn:Hl.
    - rewrite last_lookup in Hl. rewrite Nat.sub_1_r, Hl. simpl.
      rewrite <- last_lookup, last_app_cons in Hl.
      assert (l ∈ c :: t) as Hin.
      { apply last_Some in Hl as [l' Hl']. rewrite Hl'. apply elem_of_app. right. constructor. }
      rewrite Hname in Hall. rewrite forallb_forall in Hall.
      apply list_elem_of_In, Hall in Hin. by apply negb_true_iff in Hin.
    - apply last_None in Hl. by destruct pre. }
  assert (Hpos : filename_pos (pre ++ name) =
                 match find_last is_separator pre with
                 | None => 0%nat
                 | Some pos => if (pos =? 1)%nat && sep_at (pre ++ name) 0 then 0%nat
                               else (pos + 1)%nat
                 end).
  { unfold filename_pos.
    destruct ((length (pre ++ name) =? 2)%nat && sep_at (pre ++ name) 0
              && sep_at (pre ++ name) 1) eqn:E1.
    - apply andb_prop in E1 as [[E1 _]%andb_prop E2].
      apply Nat.eqb_eq in E1. rewrite E1 in Hlast. simpl in Hlast. congruence.
    - rewrite Hlast, andb_false_r. rewrite find_last_app, (find_last_none _ _ Hall).
      done. }
  unfold filename. rewrite Hpos.
  destruct Hpre as [-> | (q & s & -> & Hs)].
  - left. cbn [find_last]. rewrite Nat.ltb_irrefl, andb_false_r. done.
  - rewrite (find_last_snoc _ _ _ Hs).
    destruct ((length q =? 1)%nat && sep_at ((q ++ [s]) ++ name) 0) eqn:E.
    + right. apply andb_prop in E as [E1 E2]. apply Nat.eqb_eq in E1.
      rewrite Nat.ltb_irrefl, andb_false_r.
      destruct q as [|a [|? ?]]; try done.
      unfold sep_at in E2. simpl in E2. unfold is_separator in *.
      apply bool_decide_eq_true in E2, Hs. by subst.
    + left. replace (length q + 1)%nat with (length (q ++ [s])) by (rewrite length_app; simpl; lia).
      rewrite sep_at_app_r. unfold sep_at at 1. rewrite Hname at 2. simpl. rewrite Hc.
      rewrite andb_false_r. simpl. by rewrite drop_app_length.
Qed.

Lemma filename_regular name : is_regular_name name = true → filename name = name.
Proof.
  intros Hreg.
  destruct (filename_prefixed [] name Hreg) as [H | [H _]]; [by left | done | done].
Qed.

Lemma stem_extension p : stem p ++ extension p = filename p.
Proof.
  unfold stem, extension.
  destruct (is_dot_or_dot_dot (filename p)); [by rewrite app_nil_r|].
  destruct (find_last is_dot (filename p)); [apply take_drop | by rewrite app_nil_r].
Qed.

Lemma is_dot_or_dot_dot_root_name name :
  is_dot_or_dot_dot (lit "//" ++ name) = false.
Proof.
  unfold is_dot_or_dot_dot. apply orb_false_iff.
  split; apply bool_decide_eq_false; discriminate.
Qed.

Lemma extension_prefixed pre name :
  is_regular_name name = true →
  (pre = [] ∨ ∃ q s, pre = q ++ [s] ∧ is_separator s = true) →
  extension (pre ++ name) = extension name.
Proof.
  intros Hreg Hpre. unfold extension. rewrite (filename_regular _ Hreg).
  destruct (filename_prefixed pre name Hreg Hpre) as [-> | [-> ->]]; [done|].
  destruct (regular_name_inv _ Hreg) as (_ & _ & ->).
  rewrite is_dot_or_dot_dot_root_name, find_last_app.
  destruct (find_last is_dot name) as [k|]; [|done].
  by rewrite drop_app_add'.
Qed.

Lemma replace_extension_prefixed pre name :
  is_regular_name name = true →
  (pre = [] ∨ ∃ q s, pre = q ++ [s] ∧ is_separator s = true) →
  replace_extension (pre ++ name) = pre ++ stem name.
Proof.
  intros Hreg Hpre. unfold replace_extension.
  rewrite (extension_prefixed _ _ Hreg Hpre).
  pose proof (stem_extension name) as Hse. rewrite (filename_regular _ Hreg) in Hse.
  remember (stem name) as s eqn:Hs. remember (extension name) as e eqn:He.
  rewrite <- Hse, !length_app.
  replace (length pre + (length s + length e) - length e)%nat
    with (length pre + length s)%nat by lia.
  rewrite take_app_add' by done. by rewrite take_app_length.
Qed.

Lemma addWb_prefixed pre name :
  is_regular_name name = true →
  (pre = [] ∨ ∃ q s, pre = q ++ [s] ∧ is_separator s = true) →
  addWb (pre ++ name) = pre ++ stem name ++ lit "_wb" ++ extension name.
Proof.
  intros Hreg Hpre. unfold addWb.
  rewrite replace_extension_prefixed, extension_prefixed by done.
  by rewrite <- app_assoc.
Qed.

(** The name with "_wb" inserted begins, like the name, with a character
    that is no separator. *)
Lemma path_append_wb p name :
  is_regular_name name = true →
  p // (stem name ++ lit "_wb" ++ extension name)
  = append_separator_if_needed p ++ stem name ++ lit "_wb" ++ extension name.
Proof.
  intros Hreg.
  pose proof (stem_extension name) as Hse. rewrite (filename_regular _ Hreg) in Hse.
  destruct (regular_name_head _ Hreg) as (c & t & Hname & Hc).
  unfold path_append.
  destruct (stem name) as [|c' t'] eqn:Hstem; simpl; [done|].
  rewrite Hname in Hse. simpl in Hse. injection Hse as -> _. by rewrite Hc.
Qed.

Lemma addWb_output_path output_dir name :
  is_regular_name name = true →
  addWb (output_dir // name) = output_dir // (stem name ++ lit "_wb" ++ extension name).
Proof.
  intros Hreg.
  rewrite path_append_regular, path_append_wb by done.
  apply addWb_prefixed; [done | apply append_separator_shape].
Qed.

Lemma stem_filename p :
  is_regular_name (filename p) = true → stem (filename p) = stem p.
Proof. intros H. unfold stem. by rewrite (filename_regular _ H). Qed.

Lemma extension_filename p :
  is_regular_name (filename p) = true → extension (filename p) = extension p.
Proof. intros H. unfold extension. by rewrite (filename_regular _ H). Qed.

(** *** Borders *)

Lemma borderInterpolate_range p len :
  0 < len → 0 <= borderInterpolate p len < len.
Proof.
  intros Hlen. unfold borderInterpolate.
  destruct (0 <=? p) eqn:E1, (p <? len) eqn:E2, (p <? 0) eqn:E3; simpl; lia.
Qed.

(** [borderInterpolate p len] is the position of [0, len) nearest to [p]. *)
Lemma borderInterpolate_nearest p len q :
  0 <= q < len → Z.abs (p - borderInterpolate p len) <= Z.abs (p - q).
Proof.
  intros Hq. unfold borderInterpolate.
  destruct (0 <=? p) eqn:E1, (p <? len) eqn:E2, (p <? 0) eqn:E3; simpl; lia.
Qed.

Lemma borderInterpolate_inside p len : 0 <= p < len → borderInterpolate p len = p.
Proof.
  intros Hp. unfold borderInterpolate.
  destruct (0 <=? p) eqn:E1, (p <? len) eqn:E2; simpl; lia.
Qed.

Lemma replicate_border_length {A} (d : A) before after l :
  length (replicate_border d before after l)
  = (Z.to_nat before + length l + Z.to_nat after)%nat.
Proof.
  unfold replicate_border. rewrite !length_app, !length_fmap, !length_seqZ. lia.
Qed.

Lemma elem_lookup {A} (d : A) l j :
  0 <= j < Z.of_nat (length l) → Some (elem d l j) = l !! Z.to_nat j.
Proof.
  intros Hj. unfold elem.
  destruct (lookup_lt_is_Some_2 l (Z.to_nat j)) as [x Hx]; [lia|]. by rewrite Hx.
Qed.

Lemma replicate_border_lookup {A} (d : A) before after l (i : nat) :
  0 <= before → 0 <= after → (0 < length l)%nat →
  Z.of_nat i < before + Z.of_nat (length l) + after →
  replicate_border d before after l !! i
  = l !! Z.to_nat (borderInterpolate (Z.of_nat i - before) (Z.of_nat (length l))).
Proof.
  intros Hb Ha Hl Hi. unfold replicate_border.
  set (len := Z.of_nat (length l)).
  destruct (decide (Z.of_nat i < before)) as [Hlt|Hge].
  - rewrite lookup_app_l by (rewrite length_fmap, length_seqZ; lia).
    rewrite list_lookup_fmap, lookup_seqZ_lt by lia. simpl.
    rewrite Z.add_0_l. apply elem_lookup. apply borderInterpolate_range. lia.
  - rewrite lookup_app_r by (rewrite length_fmap, length_seqZ; lia).
    rewrite length_fmap, length_seqZ.
    destruct (decide (Z.of_nat i < before + len)) as [Hin|Hout].
    + rewrite lookup_app_l by lia.
      rewrite borderInterpolate_inside by lia. f_equal. lia.
    + rewrite lookup_app_r by lia.
      rewrite list_lookup_fmap, lookup_seqZ_lt by lia. simpl.
      rewrite Z.add_0_l.
      replace (Z.of_nat (i - Z.to_nat before - length l) + len)
        with (Z.of_nat i - before) by lia.
      apply elem_lookup. apply borderInterpolate_range. lia.
Qed.

Lemma copyMakeBorder_length src top bottom left right :
  length (copyMakeBorder src top bottom left right)
  = (Z.to_nat top + length src + Z.to_nat bottom)%nat.
Proof. unfold copyMakeBorder. by rewrite replicate_border_length, length_fmap. Qed.

Lemma copyMakeBorder_row src top bottom left right (r : nat) :
  0 <= top → 0 <= bottom → (0 < length src)%nat →
  Z.of_nat r < top + Z.of_nat (length src) + bottom →
  copyMakeBorder src top bottom left right !! r
  = replicate_border 0 left right
      <$> src !! Z.to_nat (borderInterpolate (Z.of_nat r - top) (Z.of_nat (length src))).
Proof.
  intros Ht Hb Hsrc Hr. unfold copyMakeBorder.
  rewrite replicate_border_lookup by (rewrite ?length_fmap; lia).
  by rewrite length_fmap, list_lookup_fmap.
Qed.

Lemma copyMakeBorder_pixel src top bottom left right (nr nc r c : nat) :
  0 <= top → 0 <= bottom → 0 <= left → 0 <= right →
  (0 < nr)%nat → (0 < nc)%nat →
  length src = nr → Forall (λ row, length row = nc) src →
  Z.of_nat r < top + Z.of_nat nr + bottom →
  Z.of_nat c < left + Z.of_nat nc + right →
  pixel (copyMakeBorder src top bottom left right) r c
  = pixel src (Z.to_nat (borderInterpolate (Z.of_nat r - top) (Z.of_nat nr)))
      (Z.to_nat (borderInterpolate (Z.of_nat c - left) (Z.of_nat nc))).
Proof.
  intros Ht Hb Hl Hr Hnr Hnc Hlen Hrows Hrr Hcc. unfold pixel.
  rewrite copyMakeBorder_row by lia. rewrite Hlen.
  destruct (src !! Z.to_nat (borderInterpolate (Z.of_nat r - top) (Z.of_nat nr)))
    as [row|] eqn:Hrow; simpl; [|done].
  assert (length row = nc) as Hrowlen.
  { rewrite Forall_lookup in Hrows. by eapply Hrows. }
  rewrite replicate_border_lookup by lia. by rewrite Hrowlen.
Qed.

Lemma quot2_even n : 0 <= n → Z.even n = true → n ÷ 2 + n ÷ 2 = n.
Proof.
  intros Hn He. rewrite Z.quot_div_nonneg by lia.
  apply Z.even_spec in He as [k ->]. rewrite Z.mul_comm, Z.div_mul by lia. lia.
Qed.

(** *** Rounding, saturation and the blend *)

Lemma cvRound_comp q q' : (q == q')%Q → cvRound q = cvRound q'.
Proof.
  intros Hq. unfold cvRound. rewrite (Qfloor_comp _ _ Hq).
  assert ((q - inject_Z (Qfloor q') ?= 1 # 2) = (q' - inject_Z (Qfloor q') ?= 1 # 2))%Q
    as -> by (by rewrite Hq).
  done.
Qed.

Lemma cvRound_floor_or_next q : cvRound q = Qfloor q ∨ cvRound q = Qfloor q + 1.
Proof.
  unfold cvRound. destruct (_ ?= _)%Q; [destruct (Z.even _)|..]; auto.
Qed.

(** [cvRound q] is an integer nearest to [q]. *)
Lemma cvRound_nearest q : (Qabs (inject_Z (cvRound q) - q) <= 1 # 2)%Q.
Proof.
  pose proof (Qfloor_le q) as Hlo. pose proof (Qlt_floor q) as Hhi.
  rewrite inject_Z_plus in Hhi. change (inject_Z 1) with 1%Q in Hhi.
  apply Qabs_Qle_condition. unfold cvRound.
  destruct (Qcompare_spec (q - inject_Z (Qfloor q)) (1 # 2)) as [He|Hl|Hg].
  - destruct (Z.even (Qfloor q)); rewrite ?inject_Z_plus;
      change (inject_Z 1) with 1%Q; split; lra.
  - split; lra.
  - rewrite inject_Z_plus. change (inject_Z 1) with 1%Q. split; lra.
Qed.

Lemma cvRound_uchar q : (0 <= q <= 255)%Q → is_uchar (cvRound q).
Proof.
  intros [H0 H255]. unfold is_uchar.
  pose proof (Qfloor_le q) as Hlo. pose proof (Qlt_floor q) as Hhi.
  assert (0 <= Qfloor q <= 255) as Hf.
  { split.
    - rewrite <- (Qfloor_Z 0). by apply Qfloor_resp_le.
    - rewrite <- (Qfloor_Z 255). by apply Qfloor_resp_le. }
  assert (Qfloor q = 255 → cvRound q = 255) as Htop.
  { intros E. unfold cvRound. rewrite E. rewrite E in Hlo.
    change (inject_Z 255) with 255%Q in Hlo.
    assert (q == 255)%Q as Hq by lra.
    assert ((q - inject_Z 255 ?= 1 # 2) = Lt)%Q as ->; [|done].
    apply Qlt_alt. rewrite Hq. reflexivity. }
  destruct (decide (Qfloor q = 255)) as [E|NE]; [rewrite (Htop E); lia|].
  destruct (cvRound_floor_or_next q) as [-> | ->]; lia.
Qed.

Lemma saturate_cast_uchar v : is_uchar v → saturate_cast v = v.
Proof.
  intros [H0 H255]. unfold saturate_cast.
  destruct (0 <=? v) eqn:E1, (v <=? 255) eqn:E2; simpl; lia.
Qed.

Lemma pixel_zip_with (f : Z → Z → Z) (a b : Mat) r c x y :
  pixel a r c = Some x → pixel b r c = Some y →
  pixel (zip_with (zip_with f) a b) r c = Some (f x y).
Proof.
  unfold pixel. intros Ha Hb.
  destruct (a !! r) as [ra|] eqn:Hra; [|done].
  destruct (b !! r) as [rb|] eqn:Hrb; [|done]. simpl in *.
  rewrite lookup_zip_with, Hra. simpl. rewrite Hrb. simpl.
  by rewrite lookup_zip_with, Ha; simpl; rewrite Hb.
Qed.

(** A fixed-weight blend of two 8-bit values needs no saturation. *)
Lemma blend_uchar (o m : Z) :
  is_uchar o → is_uchar m →
  (0 <= inject_Z o * (7 # 10) + inject_Z m * (3 # 10) + 0 <= 255)%Q.
Proof.
  intros [Ho0 Ho1] [Hm0 Hm1].
  assert (0 <= inject_Z o <= 255)%Q as Ho.
  { split; [change 0%Q with (inject_Z 0) | change 255%Q with (inject_Z 255)];
      rewrite <- Zle_Qle; lia. }
  assert (0 <= inject_Z m <= 255)%Q as Hm.
  { split; [change 0%Q with (inject_Z 0) | change 255%Q with (inject_Z 255)];
      rewrite <- Zle_Qle; lia. }
  split; lra.
Qed.

Lemma statics_ok_default st : statics_ok st → default adaptive_statics_init st = adaptive_statics_init.
Proof. by intros [-> | ->]. Qed.

Lemma within_half_of_blend (v o m : Z) :
  (Qabs (inject_Z v - ((7 # 10) * inject_Z o + (3 # 10) * inject_Z m)) <= 1 # 2)%Q →
  Z.abs (10 * v - (7 * o + 3 * m)) <= 5.
Proof.
  intros [H1 H2]%Qabs_Qle_condition.
  unfold Qle in H1, H2. cbn in H1, H2. lia.
Qed.


(** *** The batch loop *)

Lemma run_loop_step desc rest i size output_dir h t b border acc w :
  run_loop (desc :: rest) i size output_dir h t b border acc w =
  let processed := processImage (statics w) (Image_load (files w) desc) h t b border in
  let w1 := set_statics (fst processed) (log_event (EvDecode desc) w) in
  let output := output_path output_dir desc in
  if Image_write_ok (files w1) output (snd processed) then
    run_loop rest (S i) size output_dir h t b border (acc ++ [output])
      (printProgress (start_time w1) (Z.of_nat (i + 1) # Pos.of_nat size)
         (log_event (EvWriteImage output true)
            (set_files (<[output := ImageFile (snd processed)]> (files w1)) w1)))
  else
    (print_cerr (write_failure output) (log_event (EvWriteImage output false) w1), None).
Proof.
  cbn [run_loop]. destruct (processImage _ _ _ _ _ _) as [st img]. cbn [fst snd].
  unfold Image_write, output_path.
  by destruct (Image_write_ok _ _ _).
Qed.

Lemma only_images_added_refl f : only_images_added f f.
Proof. split; eauto. Qed.

Lemma only_images_added_insert f f' p m :
  only_images_added (<[p := ImageFile m]> f) f' → only_images_added f f'.
Proof.
  intros [Htext Himg]. split.
  - intros q content Hq. specialize (Htext q content Hq).
    destruct (decide (p = q)) as [->|Hne].
    + by rewrite lookup_insert_eq in Htext.
    + by rewrite lookup_insert_ne in Htext.
  - intros q m0 Hq. destruct (decide (p = q)) as [->|Hne].
    + apply (Himg q m). by rewrite lookup_insert_eq.
    + apply (Himg q m0). by rewrite lookup_insert_ne.
Qed.

Lemma run_loop_spec descs size output_dir h t b border : ∀ i acc w,
  let res := run_loop descs i size output_dir h t b border acc w in
  let w' := fst res in
  only_images_added (files w) (files w')
  ∧ match snd res with
    | Some paths =>
        paths = acc ++ (output_path output_dir <$> descs)
        ∧ trace w' = trace w ++ concat (image_events output_dir <$> descs)
        ∧ cerr w' = cerr w
        ∧ ∀ d, d ∈ descs → ∃ m, files w' !! output_path output_dir d = Some (ImageFile m)
    | None =>
        ∃ k desc, descs !! k = Some desc
        ∧ trace w' = trace w ++ concat (image_events output_dir <$> take k descs)
                     ++ [EvDecode desc; EvWriteImage (output_path output_dir desc) false]
        ∧ cerr w' = cerr w ++ write_failure (output_path output_dir desc)
        ∧ ∀ d, d ∈ take k descs →
            ∃ m, files w' !! output_path output_dir d = Some (ImageFile m)
    end.
Proof.
  induction descs as [|desc rest IH]; intros i acc w.
  - simpl. split; [apply only_images_added_refl|].
    rewrite !app_nil_r. split; [done|]. split; [done|]. split; [done|].
    intros d Hd. by apply elem_of_nil in Hd.
  - cbv zeta. rewrite run_loop_step. cbv zeta.
    set (processed := processImage _ _ _ _ _ _).
    set (w1 := set_statics _ _).
    set (output := output_path output_dir desc).
    destruct (Image_write_ok (files w1) output (snd processed)) eqn:Hok.
    + set (w2 := printProgress _ _ _).
      specialize (IH (S i) (acc ++ [output]) w2).
      cbv zeta in IH. destruct IH as [Hfiles IH].
      split; [apply (only_images_added_insert _ _ output (snd processed)); exact Hfiles|].
      destruct (snd (run_loop rest (S i) size output_dir h t b border
                       (acc ++ [output]) w2)) as [paths|].
      * destruct IH as (-> & Htr & Herr & Hwritten).
        split; [by rewrite <- app_assoc|]. split.
        { rewrite Htr. simpl. by rewrite <- !app_assoc. }
        split; [done|].
        intros d [->|Hd]%elem_of_cons; [|by apply Hwritten].
        apply (proj2 Hfiles _ (snd processed)). simpl. apply lookup_insert_eq.
      * destruct IH as (k & d0 & Hk & Htr & Herr & Hwritten).
        exists (S k), d0. split; [done|]. split.
        { rewrite Htr. simpl. by rewrite <- !app_assoc. }
        split; [done|].
        intros d [->|Hd]%elem_of_cons; [|by apply Hwritten].
        apply (proj2 Hfiles _ (snd processed)). simpl. apply lookup_insert_eq.
    + simpl. split; [apply only_images_added_refl|].
      exists 0%nat, desc. split; [done|]. split; [by rewrite <- app_assoc|].
      split; [done|]. intros d Hd. by apply elem_of_nil in Hd.
Qed.

Lemma write_results_app a b : write_results (a ++ b) = write_results a ++ write_results b.
Proof. apply omap_app. Qed.

Lemma write_results_image_events output_dir descs :
  write_results (concat (image_events output_dir <$> descs)) = (λ _, true) <$> descs.
Proof.
  induction descs as [|d descs IH]; [done|].
  cbn [fmap list_fmap concat]. rewrite write_results_app, IH. done.
Qed.

(** What [run] does, by the way its loop ends. *)
Lemma run_spec descs output_dir output_pathfile h t b border w :
  let res := run descs output_dir output_pathfile h t b border w in
  let w' := fst res in
  let target := default (output_dir // lit "images.txt") output_pathfile in
  (snd res = 0
   ∧ (∃ ok,
        trace w' = trace w ++ EvCreateDirectories output_dir
                     :: concat (image_events output_dir <$> descs)
                     ++ [EvWritePathfile target ok]
        ∧ (ok = true →
           files w' !! target
           = Some (TextFile (concat ((λ p, p ++ [newline])
                                       <$> (output_path output_dir <$> descs))))))
   ∧ cerr w' = cerr w)
  ∨ (snd res = 1
     ∧ ∃ k desc, descs !! k = Some desc
       ∧ trace w' = trace w ++ EvCreateDirectories output_dir
                      :: concat (image_events output_dir <$> take k descs)
                      ++ [EvDecode desc; EvWriteImage (output_path output_dir desc) false]
       ∧ cerr w' = cerr w ++ write_failure (output_path output_dir desc)
       ∧ only_images_added (files w) (files w')
       ∧ ∀ d, d ∈ take k descs →
           ∃ m, files w' !! output_path output_dir d = Some (ImageFile m)).
Proof.
  cbv zeta. unfold run.
  set (w0 := printProgress _ _ _).
  pose proof (run_loop_spec descs (length descs) output_dir h t b border 0 [] w0) as Hloop.
  cbv zeta in Hloop. destruct Hloop as [Hfiles Hloop].
  destruct (run_loop descs 0 (length descs) output_dir h t b border [] w0)
    as [w1 [paths|]]; cbn [fst snd] in *.
  - left. destruct Hloop as (-> & Htr & Herr & _). split; [done|].
    unfold writeOutputPathfile.
    destruct (ofstream_opens (files w1) _) eqn:Hopen.
    + split; [|done]. exists true. simpl. split; [|by rewrite lookup_insert_eq].
      rewrite Htr. simpl. by rewrite <- !app_assoc.
    + split; [|done]. exists false. simpl. split; [|done].
      rewrite Htr. simpl. by rewrite <- !app_assoc.
  - right. destruct Hloop as (k & desc & Hk & Htr & Herr & Hwritten).
    split; [done|]. exists k, desc. split; [done|]. split.
    { rewrite Htr. simpl. by rewrite <- !app_assoc. }
    done.
Qed.

Lemma main_status vm w : snd (main vm w) = 0.
Proof.
  unfold main. destruct (vm_help vm); [done|].
  destruct (vm_pathfile vm) as [|pathfile ?]; [done|].
  destruct (vm_output_dir vm) as [output_dir|]; [|done].
  by destruct (run _ _ _ _ _ _ _ _).
Qed.

(** *** The statics *)

Lemma adaptiveTresholding_statics st mat b :
  statics_ok st → fst (adaptiveTresholding st mat b) = Some adaptive_statics_init.
Proof. intros Hst. unfold adaptiveTresholding. by rewrite (statics_ok_default _ Hst). Qed.

Lemma processImage_statics_ok st mat h t b border :
  statics_ok st → statics_ok (fst (processImage st mat h t b border)).
Proof.
  intros Hst. unfold processImage. destruct t; [|done].
  rewrite adaptiveTresholding_statics by done. by right.
Qed.

(** The statics stay in such a state throughout a batch. *)
Lemma run_loop_statics_ok descs size output_dir h t b border : ∀ i acc w,
  statics_ok (statics w) →
  statics_ok (statics (fst (run_loop descs i size output_dir h t b border acc w))).
Proof.
  induction descs as [|desc rest IH]; intros i acc w Hst; [done|].
  rewrite run_loop_step. cbv zeta.
  destruct (Image_write_ok _ _ _).
  - apply IH. simpl. by apply processImage_statics_ok.
  - simpl. by apply processImage_statics_ok.
Qed.

Lemma run_statics_ok descs output_dir output_pathfile h t b border w :
  statics_ok (statics w) →
  statics_ok (statics (fst (run descs output_dir output_pathfile h t b border w))).
Proof.
  intros Hst. unfold run.
  set (w0 := printProgress _ _ _).
  pose proof (run_loop_statics_ok descs (length descs) output_dir h t b border 0 [] w0 Hst)
    as Hloop.
  destruct (run_loop _ _ _ _ _ _ _ _ _ _) as [w1 [paths|]]; [|done].
  unfold writeOutputPathfile. by destruct (ofstream_opens _ _).
Qed.

(** *** The lines of the path file *)



(** *** Binary images through a batch *)

Lemma adaptiveTresholding_binary st mat :
  statics_ok st → binary_mat (snd (adaptiveTresholding st mat true)).
Proof.
  intros Hst. unfold adaptiveTresholding. rewrite (statics_ok_default _ Hst).
  cbn [snd max_value block_size adaptive_statics_init].
  unfold adaptiveThreshold, binary_mat.
  apply Forall_lookup. intros i row Hrow.
  apply lookup_zip_with_Some in Hrow as (ra & rb & -> & _ & _).
  apply Forall_lookup. intros j v Hv.
  apply lookup_zip_with_Some in Hv as (x & y & -> & _ & _).
  change (saturate_cast (cvRound 255)) with 255. destruct (_ <? _); auto.
Qed.

(** With thresholding and the binary flag on, every image the loop writes
    is a mask, and a mask on disk stays one. *)
Lemma run_loop_binary descs size output_dir hist border : ∀ i acc w,
  statics_ok (statics w) →
  let res := run_loop descs i size output_dir hist true true border acc w in
  ∃ evs, trace (fst res) = trace w ++ evs
    ∧ (∀ q m, files w !! q = Some (ImageFile m) → binary_mat m →
         ∃ m', files (fst res) !! q = Some (ImageFile m') ∧ binary_mat m')
    ∧ (∀ p, EvWriteImage p true ∈ evs →
         ∃ m, files (fst res) !! p = Some (ImageFile m) ∧ binary_mat m).
Proof.
  induction descs as [|desc rest IH]; intros i acc w Hst.
  - exists []. simpl. rewrite app_nil_r. split; [done|]. split; [eauto|].
    intros p Hp. by apply elem_of_nil in Hp.
  - cbv zeta. rewrite run_loop_step. cbv zeta.
    set (processed := processImage _ _ _ _ _ _).
    assert (binary_mat (snd processed)) as Hmask.
    { subst processed. unfold processImage. by apply adaptiveTresholding_binary. }
    assert (statics_ok (fst processed)) as Hst'
      by (by apply processImage_statics_ok).
    set (w1 := set_statics _ _).
    set (output := output_path output_dir desc).
    destruct (Image_write_ok (files w1) output (snd processed)).
    + set (w2 := printProgress _ _ _).
      destruct (IH (S i) (acc ++ [output]) w2 Hst') as (evs & Htr & Hkeep & Hnew).
      assert (∃ m', files (fst (run_loop rest (S i) size output_dir hist true true border
                                  (acc ++ [output]) w2)) !! output = Some (ImageFile m')
                    ∧ binary_mat m') as Hout.
      { apply (Hkeep output (snd processed)); [|done]. simpl. apply lookup_insert_eq. }
      exists ([EvDecode desc; EvWriteImage output true] ++ evs). split.
      { rewrite Htr. simpl. by rewrite <- !app_assoc. }
      split.
      * intros q m Hq Hm. destruct (decide (output = q)) as [<-|Hne]; [done|].
        apply (Hkeep q m); [|done]. simpl. by rewrite lookup_insert_ne.
      * intros p [Hp|Hp]%elem_of_app; [|by apply Hnew].
        apply elem_of_cons in Hp as [Hp|Hp]; [done|].
        apply elem_of_cons in Hp as [Hp|Hp]; [|by apply elem_of_nil in Hp].
        by injection Hp as ->.
    + exists [EvDecode desc; EvWriteImage output false]. simpl. split.
      { by rewrite <- app_assoc. }
      split; [eauto|].
      intros p Hp. apply elem_of_cons in Hp as [Hp|Hp]; [done|].
      apply elem_of_cons in Hp as [Hp|Hp]; [done|]. by apply elem_of_nil in Hp.
Qed.

(** *** The output path of any named input *)




(** Every ordinary file name has the same extension under a directory. *)
Lemma regular_name_under_directory output_dir input :
  is_regular_name (filename input) = true →
  filename input ≠ []
  ∧ extension (output_dir // filename input) = extension input.
Proof.
  intros Hreg. destruct (regular_name_inv _ Hreg) as (Hne & _ & _). split; [done|].
  rewrite path_append_regular by done.
  rewrite extension_prefixed by (done || apply append_separator_shape).
  by apply extension_filename.
Qed.

(** ** The claims *)

(** The events of a run are what its trace has beyond the initial one. *)
Ltac same_events Htrace Htr evs :=
  rewrite Htrace in Htr; apply app_inv_head in Htr; subst evs.

(** C3: for a non-empty [nr] x [nc] buffer (and an even [TAG_HEIGHT] and
    [TAG_WIDTH]) [makeBorder] yields [nr + TAG_HEIGHT] rows of
    [nc + TAG_WIDTH] pixels; the original sits [TAG_HEIGHT/2] rows down and
    [TAG_WIDTH/2] columns in, which leaves the same margin on the other
    two sides; and every pixel of the result, the margins and the corners
    included, is the original pixel nearest to it in row and in column. *)
Theorem makeBorder_replicates_edges (mat : Mat) (nr nc : nat) :
  0 <= TAG_HEIGHT → 0 <= TAG_WIDTH →
  Z.even TAG_HEIGHT = true → Z.even TAG_WIDTH = true →
  (0 < nr)%nat → (0 < nc)%nat →
  length mat = nr → Forall (λ row, length row = nc) mat →
  let out := makeBorder mat in
  let top := TAG_HEIGHT ÷ 2 in
  let left := TAG_WIDTH ÷ 2 in
  Z.of_nat (length out) = Z.of_nat nr + TAG_HEIGHT
  ∧ Forall (λ row, Z.of_nat (length row) = Z.of_nat nc + TAG_WIDTH) out
  ∧ (∀ r c, (r < nr)%nat → (c < nc)%nat →
       pixel out (Z.to_nat top + r) (Z.to_nat left + c) = pixel mat r c)
  ∧ (∀ r c, Z.of_nat r < Z.of_nat nr + TAG_HEIGHT →
            Z.of_nat c < Z.of_nat nc + TAG_WIDTH →
       ∃ r0 c0 v, (r0 < nr)%nat ∧ (c0 < nc)%nat
         ∧ pixel mat r0 c0 = Some v ∧ pixel out r c = Some v
         ∧ (∀ r', (r' < nr)%nat →
              Z.abs (Z.of_nat r - top - Z.of_nat r0)
              <= Z.abs (Z.of_nat r - top - Z.of_nat r'))
         ∧ (∀ c', (c' < nc)%nat →
              Z.abs (Z.of_nat c - left - Z.of_nat c0)
              <= Z.abs (Z.of_nat c - left - Z.of_nat c'))).
Proof.
  intros Hh Hw Heh Hew Hnr Hnc Hlen Hrows out top left.
  pose proof (quot2_even _ Hh Heh) as Htop. pose proof (quot2_even _ Hw Hew) as Hleft.
  fold top in Htop. fold left in Hleft.
  assert (0 <= top) as Ht0 by (subst top; apply Z.quot_pos; lia).
  assert (0 <= left) as Hl0 by (subst left; apply Z.quot_pos; lia).
  assert (Hpix : ∀ r c, Z.of_nat r < Z.of_nat nr + TAG_HEIGHT →
            Z.of_nat c < Z.of_nat nc + TAG_WIDTH →
            pixel out r c
            = pixel mat (Z.to_nat (borderInterpolate (Z.of_nat r - top) (Z.of_nat nr)))
                (Z.to_nat (borderInterpolate (Z.of_nat c - left) (Z.of_nat nc)))).
  { intros r c Hr Hc. subst out. unfold makeBorder.
    apply copyMakeBorder_pixel; try done; lia. }
  split; [|split; [|split]].
  - subst out. unfold makeBorder. rewrite copyMakeBorder_length. lia.
  - apply Forall_lookup. intros i row Hi.
    assert (i < length out)%nat as Hlt by (by eapply lookup_lt_Some).
    subst out. unfold makeBorder in *. rewrite copyMakeBorder_length in Hlt.
    rewrite copyMakeBorder_row in Hi by lia.
    apply fmap_Some in Hi as (row0 & Hrow0 & ->).
    rewrite replicate_border_length.
    rewrite Forall_lookup in Hrows. rewrite (Hrows _ _ Hrow0). lia.
  - intros r c Hr Hc. rewrite Hpix by lia.
    rewrite !borderInterpolate_inside by lia. f_equal; lia.
  - intros r c Hr Hc.
    pose proof (borderInterpolate_range (Z.of_nat r - top) (Z.of_nat nr)) as Hr0.
    pose proof (borderInterpolate_range (Z.of_nat c - left) (Z.of_nat nc)) as Hc0.
    set (r0 := Z.to_nat (borderInterpolate (Z.of_nat r - top) (Z.of_nat nr))).
    set (c0 := Z.to_nat (borderInterpolate (Z.of_nat c - left) (Z.of_nat nc))).
    assert (r0 < nr)%nat as Hr0' by lia. assert (c0 < nc)%nat as Hc0' by lia.
    destruct (lookup_lt_is_Some_2 mat r0) as [row Hrow]; [lia|].
    assert (length row = nc) as Hrl.
    { rewrite Forall_lookup in Hrows. by eapply Hrows. }
    destruct (lookup_lt_is_Some_2 row c0) as [v Hv]; [lia|].
    assert (pixel mat r0 c0 = Some v) as Hpv.
    { unfold pixel. rewrite Hrow. done. }
    exists r0, c0, v. split; [done|]. split; [done|]. split; [done|].
    split; [by rewrite Hpix|]. split.
    + intros r' Hr'. subst r0. rewrite Z2Nat.id by lia.
      apply borderInterpolate_nearest. lia.
    + intros c' Hc'. subst c0. rewrite Z2Nat.id by lia.
      apply borderInterpolate_nearest. lia.
Qed.

(** C4: the mask of [adaptiveTresholding] is the comparison of each pixel
    with its Gaussian local mean of block size 51, offset 0: 255 above the
    mean, 0 otherwise. With [use_binary_image] the result is that mask;
    without, a pixel [o] under mask value [m] becomes
    [cvRound (0.7 o + 0.3 m)], an integer within one half of the exact
    blend (no saturation occurs). *)
Theorem adaptiveTresholding_mask_or_blend st mat r c o t :
  statics_ok st → is_uchar o →
  pixel mat r c = Some o →
  pixel (local_mean ADAPTIVE_THRESH_GAUSSIAN_C 51 mat) r c = Some t →
  let mask :=
    adaptiveThreshold mat 255 ADAPTIVE_THRESH_GAUSSIAN_C THRESH_BINARY 51 0 in
  let m := if t <? o then 255 else 0 in
  pixel mask r c = Some m
  ∧ snd (adaptiveTresholding st mat true) = mask
  ∧ ∃ v, pixel (snd (adaptiveTresholding st mat false)) r c = Some v
      ∧ v = cvRound ((7 # 10) * inject_Z o + (3 # 10) * inject_Z m)
      ∧ Z.abs (10 * v - (7 * o + 3 * m)) <= 5.
Proof.
  intros Hst Ho Hpix Hmean mask m.
  assert (pixel mask r c = Some m) as Hmask.
  { subst mask m. unfold adaptiveThreshold.
    erewrite pixel_zip_with by done. f_equal.
    change (Qceiling 0) with 0. change (- 0) with 0.
    change (saturate_cast (cvRound 255)) with 255.
    destruct (0 <? o - t) eqn:E1, (t <? o) eqn:E2; lia. }
  unfold adaptiveTresholding. rewrite (statics_ok_default _ Hst). simpl.
  fold mask. split; [done|]. split; [done|].
  eexists. split; [|split; [reflexivity|]].
  - unfold addWeighted. erewrite pixel_zip_with by done. f_equal.
    assert (is_uchar m) as Hm by (subst m; destruct (t <? o); unfold is_uchar; lia).
    rewrite saturate_cast_uchar by (apply cvRound_uchar, blend_uchar; done).
    apply cvRound_comp. ring.
  - apply within_half_of_blend, cvRound_nearest.
Qed.

(** C2: when the write of the image at index [i] fails, [run] returns 1 at
    once: the events of the batch are the directory creation, a decode
    and a successful write for each of the [i] descriptors before, then
    the decode and the failed write of descriptor [i], and nothing after
    them (no later descriptor is decoded, no path file is written); no
    text file is new among the files; the outputs of the descriptors
    before [i] are image files on disk; the error names the failing
    path. *)
Theorem write_failure_aborts_batch descs output_dir output_pathfile h t b border
    w evs (i : nat) :
  let res := run descs output_dir output_pathfile h t b border w in
  trace (fst res) = trace w ++ evs →
  write_results evs !! i = Some false →
  ∃ desc, descs !! i = Some desc
    ∧ snd res = 1
    ∧ evs = EvCreateDirectories output_dir
            :: concat (image_events output_dir <$> take i descs)
            ++ [EvDecode desc; EvWriteImage (output_path output_dir desc) false]
    ∧ (∀ q content, files (fst res) !! q = Some (TextFile content) →
         files w !! q = Some (TextFile content))
    ∧ (∀ j d, (j < i)%nat → descs !! j = Some d →
         ∃ m, files (fst res) !! output_path output_dir d = Some (ImageFile m))
    ∧ cerr (fst res) = cerr w ++ write_failure (output_path output_dir desc).
Proof.
  intros res Htrace Hfail. subst res.
  destruct (run_spec descs output_dir output_pathfile h t b border w)
    as [(_ & (ok & Htr & _) & _)
       | (Hrc & k & desc & Hk & Htr & Herr & Hfiles & Hwritten)].
  - exfalso. same_events Htrace Htr evs.
    change (write_results (?e :: ?l)) with (write_results l) in Hfail.
    rewrite write_results_app, write_results_image_events in Hfail.
    change (write_results [_]) with (@nil bool) in Hfail. rewrite app_nil_r in Hfail.
    rewrite list_lookup_fmap in Hfail. by destruct (descs !! i).
  - same_events Htrace Htr evs.
    change (write_results (?e :: ?l)) with (write_results l) in Hfail.
    rewrite write_results_app, write_results_image_events in Hfail.
    change (write_results [_; _]) with [false] in Hfail.
    assert (length (take k descs) = k) as Hlen.
    { rewrite length_take. apply lookup_lt_Some in Hk. lia. }
    assert (i = k) as ->.
    { apply lookup_app_Some in Hfail as [Hl | [Hge Hr]].
      - rewrite list_lookup_fmap in Hl. by destruct (take k descs !! i).
      - rewrite length_fmap, Hlen in Hge, Hr.
        apply lookup_lt_Some in Hr. simpl in Hr. lia. }
    exists desc. split; [done|]. split; [done|]. split; [done|].
    split; [apply Hfiles|]. split; [|done].
    intros j d Hj Hd. apply Hwritten. apply list_elem_of_lookup. exists j.
    by rewrite lookup_take_lt.
Qed.


(** C10, as amended: for the empty descriptor list [run] decodes and
    writes no image, reports 0 images and returns 0; the path file at the
    override path or at [output_dir/images.txt] is written without any
    line when its stream opens, and no file is made or changed when it
    does not. *)
Theorem run_on_empty_batch output_dir output_pathfile h t b border w :
  let res := run [] output_dir output_pathfile h t b border w in
  let target := default (output_dir // lit "images.txt") output_pathfile in
  let opened := ofstream_opens (files w) target in
  snd res = 0
  ∧ files (fst res) = (if opened then <[target := TextFile []]> (files w) else files w)
  ∧ trace (fst res)
    = trace w ++ [EvCreateDirectories output_dir; EvWritePathfile target opened]
  ∧ cerr (fst res) = cerr w
  ∧ cout (fst res)
    = cout w ++ [OProgress (clock w) 0; OEndl; OStr (lit "Add border to "); ONum 0;
                 OStr (lit " images. Saved new images paths to: "); OEndl;
                 OStr target; OEndl].
Proof.
  cbv zeta. unfold run, writeOutputPathfile. cbn.
  destruct (ofstream_opens (files w) _); cbn; rewrite <- !app_assoc; done.
Qed.

(** C8: when the path file or the output directory is not given, [main]
    prints the usage message, touches no file, decodes and writes no
    image, and returns 0. *)
Theorem missing_configuration_prints_usage vm w :
  vm_pathfile vm = [] ∨ vm_output_dir vm = None →
  let res := main vm w in
  snd res = 0
  ∧ files (fst res) = files w
  ∧ trace (fst res) = trace w
  ∧ cerr (fst res) = cerr w
  ∧ ∃ before, cout (fst res) = cout w ++ before ++ usage.
Proof.
  intros Hmissing. cbv zeta. unfold main.
  destruct (vm_help vm).
  { repeat split; try done. by exists []. }
  assert (∀ w', w' = print_cout
            (OStr (lit "No pathfile or output_dir are given") :: OEndl :: usage) w →
          files w' = files w ∧ trace w' = trace w ∧ cerr w' = cerr w
          ∧ ∃ before, cout w' = cout w ++ before ++ usage) as Hout.
  { intros w' ->. repeat split; try done.
    by exists [OStr (lit "No pathfile or output_dir are given"); OEndl]. }
  destruct Hmissing as [Hp | Ho].
  - rewrite Hp. split; [done|]. by apply Hout.
  - rewrite Ho. destruct (vm_pathfile vm); (split; [done|]); by apply Hout.
Qed.

(** C5: with [binary-image] set, [main] hands [use_thresholding = true]
    to [run] whatever [use-threshold] says, and the loop of [run] then
    puts every decoded image, after the border and the equalisation,
    through [adaptiveTresholding] and writes the mask. The batch decodes
    and writes the descriptors of the path file in order, all of them or
    up to the first write that fails, and each image it has written is,
    unless the path file took its place, an image file of nothing but 0
    and 255. The stage itself does not turn to the binary flag to decide
    whether to run: called with [use_thresholding = false] and
    [use_binary_image = true], [processImage] leaves the thresholding
    out. *)
Theorem binary_image_forces_threshold vm w pathfile others output_dir evs :
  vm_help vm = false →
  vm_pathfile vm = pathfile :: others →
  vm_output_dir vm = Some output_dir →
  vm_binary_image vm = true →
  statics_ok (statics w) →
  trace (fst (main vm w)) = trace w ++ evs →
  let hist := vm_use_hist_eq vm in
  let border := vm_border vm in
  let staged mat :=
    let mat := if border then makeBorder mat else mat in
    if hist then localHistogramEq mat else mat in
  let target := default (output_dir // lit "images.txt") (vm_output_pathfile vm) in
  let descs := fromPathFile (files w) pathfile in
  main vm w
  = (fst (run descs output_dir (vm_output_pathfile vm) hist true true border w), 0)
  ∧ ((∃ ok, evs = EvCreateDirectories output_dir
                  :: concat (image_events output_dir <$> descs)
                  ++ [EvWritePathfile target ok])
     ∨ (∃ k desc, descs !! k = Some desc
          ∧ evs = EvCreateDirectories output_dir
                  :: concat (image_events output_dir <$> take k descs)
                  ++ [EvDecode desc; EvWriteImage (output_path output_dir desc) false]))
  ∧ (∀ desc rest i size acc w',
       run_loop (desc :: rest) i size output_dir hist true true border acc w'
       = let mask :=
           adaptiveTresholding (statics w') (staged (Image_load (files w') desc)) true in
         let w1 := set_statics (fst mask) (log_event (EvDecode desc) w') in
         let output := output_path output_dir desc in
         if Image_write_ok (files w1) output (snd mask) then
           run_loop rest (S i) size output_dir hist true true border (acc ++ [output])
             (printProgress (start_time w1) (Z.of_nat (i + 1) # Pos.of_nat size)
                (log_event (EvWriteImage output true)
                   (set_files (<[output := ImageFile (snd mask)]> (files w1)) w1)))
         else
           (print_cerr (write_failure output)
              (log_event (EvWriteImage output false) w1), None))
  ∧ (∀ p, EvWriteImage p true ∈ evs → p ≠ target →
       ∃ m, files (fst (main vm w)) !! p = Some (ImageFile m) ∧ binary_mat m)
  ∧ (∀ st mat, processImage st mat hist false true border = (st, staged mat)).
Proof.
  intros Hhelp Hpath Hdir Hbin Hst Htrace hist border staged target descs.
  assert (main vm w
          = (fst (run descs output_dir (vm_output_pathfile vm) hist true true border w), 0))
    as Hmain.
  { unfold main. rewrite Hhelp, Hpath, Hdir, Hbin.
    by destruct (run _ _ _ _ _ _ _ _). }
  split; [done|]. split.
  { rewrite Hmain in Htrace. cbn [fst] in Htrace.
    destruct (run_spec descs output_dir (vm_output_pathfile vm) hist true true border w)
      as [(_ & (ok & Htr & _) & _) | (_ & k & desc & Hk & Htr & _)];
      same_events Htrace Htr evs.
    - left. by exists ok.
    - right. by exists k, desc. }
  split; [intros; by rewrite run_loop_step|]. split; [|done].
  rewrite Hmain in Htrace |- *. cbn [fst] in *. revert Htrace. unfold run.
  set (w0 := printProgress _ _ _).
  destruct (run_loop_binary descs (length descs) output_dir hist border 0 [] w0 Hst)
    as (evs0 & Htr0 & _ & Hnew).
  destruct (run_loop _ _ _ _ _ _ _ _ _ _) as [w1 [paths|]]; cbn [fst] in *.
  - fold target. unfold writeOutputPathfile.
    destruct (ofstream_opens (files w1) target); simpl; rewrite Htr0; simpl;
      rewrite <- !app_assoc; intros Hevs%app_inv_head; subst evs;
      intros p Hp Hne;
      apply elem_of_cons in Hp as [Hp|Hp]; try done;
      apply elem_of_app in Hp as [Hp|Hp].
    + rewrite lookup_insert_ne by done. by apply Hnew.
    + apply elem_of_cons in Hp as [Hp|Hp]; [done|]. by apply elem_of_nil in Hp.
    + by apply Hnew.
    + apply elem_of_cons in Hp as [Hp|Hp]; [done|]. by apply elem_of_nil in Hp.
  - rewrite Htr0. simpl. rewrite <- !app_assoc.
    intros Hevs%app_inv_head. subst evs. intros p Hp Hne.
    apply elem_of_cons in Hp as [Hp|Hp]; [done|]. by apply Hnew.
Qed.


(** ** Further properties *)

(** *** Output names *)

Lemma extension_length_le p : (length (extension p) ≤ length p)%nat.
Proof.
  unfold extension, filename.
  destruct ((0 <? length p)%nat && (0 <? filename_pos p)%nat && sep_at p (filename_pos p)
            && negb (is_root_separator p (filename_pos p))).
  { replace (is_dot_or_dot_dot (lit ".")) with true by reflexivity. simpl. lia. }
  destruct (is_dot_or_dot_dot _); [simpl; lia|].
  destruct (find_last is_dot _); [|simpl; lia].
  rewrite !length_drop. lia.
Qed.

Lemma addWb_length p : length (addWb p) = (length p + 3)%nat.
Proof.
  unfold addWb, replace_extension. pose proof (extension_length_le p).
  rewrite !length_app, length_take. cbn [lit list_ascii_of_string length]. lia.
Qed.

Lemma find_last_bound P s k : find_last P s = Some k → (k < length s)%nat.
Proof.
  revert k. induction s as [|c s IH]; simpl; [done|].
  intros k. destruct (find_last P s) as [j|].
  - intros [= <-]. specialize (IH j eq_refl). lia.
  - destruct (P c); [|done]. intros [= <-]. lia.
Qed.

Lemma find_last_drop P s k : find_last P s = Some k → find_last P (drop k s) = Some 0%nat.
Proof.
  intros Hk. pose proof (find_last_bound _ _ _ Hk) as Hlt.
  rewrite <- (take_drop k s) in Hk. rewrite find_last_app in Hk.
  rewrite length_take, Nat.min_l in Hk by lia.
  destruct (find_last P (drop k s)) as [j|].
  - injection Hk as Hj. f_equal. lia.
  - apply find_last_bound in Hk. rewrite length_take in Hk. lia.
Qed.

(** Stem and extension of a regular name: either the name has no dot and
    is its own stem, or the extension starts at its last dot. *)
Lemma regular_name_parts name :
  is_regular_name name = true →
  (find_last is_dot name = None ∧ stem name = name ∧ extension name = [])
  ∨ (∃ pos, find_last is_dot name = Some pos
       ∧ stem name = take pos name ∧ extension name = drop pos name).
Proof.
  intros Hreg. destruct (regular_name_inv _ Hreg) as (_ & _ & Hdot).
  unfold stem, extension. rewrite (filename_regular _ Hreg), Hdot.
  destruct (find_last is_dot name) as [pos|]; [right; by exists pos | by left].
Qed.

Lemma find_last_is_dot_wb name :
  is_regular_name name = true →
  find_last is_dot (stem name ++ lit "_wb" ++ extension name)
  = match find_last is_dot name with
    | Some _ => Some (length (stem name) + 3)%nat
    | None => None
    end.
Proof.
  intros Hreg.
  destruct (regular_name_parts _ Hreg) as [(Hnone & -> & ->) | (pos & Hpos & -> & ->)].
  - rewrite Hnone, app_nil_r, find_last_app. simpl. by rewrite Hnone.
  - rewrite Hpos, !find_last_app, (find_last_drop _ _ _ Hpos). simpl.
    f_equal; lia.
Qed.

Lemma wb_name_regular name :
  is_regular_name name = true →
  is_regular_name (stem name ++ lit "_wb" ++ extension name) = true.
Proof.
  intros Hreg. destruct (regular_name_inv _ Hreg) as (_ & Hall & _).
  pose proof (stem_extension name) as Hse. rewrite (filename_regular _ Hreg) in Hse.
  rewrite <- Hse, forallb_app in Hall. apply andb_prop in Hall as [Hs He].
  unfold is_regular_name. rewrite !forallb_app, Hs, He.
  assert (∀ x : list ascii, (3 ≤ length x)%nat → is_dot_or_dot_dot x = false) as Hlong.
  { intros x Hx. unfold is_dot_or_dot_dot. apply orb_false_iff.
    split; apply bool_decide_eq_false; intros ->; simpl in Hx; lia. }
  rewrite Hlong by (rewrite !length_app; simpl; lia).
  destruct (stem name); reflexivity.
Qed.

(** The shape of an output path: the directory, a separator when one is
    needed, and the name with "_wb" in it. *)
Lemma output_path_shape output_dir desc :
  is_regular_name (filename (desc_filename desc)) = true →
  output_path output_dir desc
  = append_separator_if_needed output_dir
    ++ stem (filename (desc_filename desc)) ++ lit "_wb"
    ++ extension (filename (desc_filename desc)).
Proof.
  intros Hreg. unfold output_path.
  rewrite path_append_regular by done.
  apply addWb_prefixed; [done | apply append_separator_shape].
Qed.

Lemma wb_name_inj name1 name2 :
  is_regular_name name1 = true → is_regular_name name2 = true →
  stem name1 ++ lit "_wb" ++ extension name1 = stem name2 ++ lit "_wb" ++ extension name2 →
  name1 = name2.
Proof.
  intros H1 H2 Heq.
  pose proof (find_last_is_dot_wb _ H1) as F1.
  pose proof (find_last_is_dot_wb _ H2) as F2.
  rewrite Heq, F2 in F1.
  pose proof (stem_extension name1) as S1. rewrite (filename_regular _ H1) in S1.
  pose proof (stem_extension name2) as S2. rewrite (filename_regular _ H2) in S2.
  destruct (regular_name_parts _ H1) as [(N1 & _ & E1) | (p1 & N1 & _ & _)];
    destruct (regular_name_parts _ H2) as [(N2 & _ & E2) | (p2 & N2 & _ & _)];
    rewrite N1, N2 in F1; try discriminate.
  - rewrite E1, E2, !app_nil_r in Heq. apply app_inv_tail in Heq.
    rewrite <- S1, <- S2, E1, E2, Heq. done.
  - injection F1 as Hlen.
    apply app_inj_1 in Heq as [Hs He]; [|lia].
    apply app_inv_head in He. rewrite <- S1, <- S2, Hs, He. done.
Qed.

(** X1: two descriptors with ordinary file names get the same output path
    exactly when their file names are the same, whatever their
    directories. *)
Theorem output_paths_collide_iff_same_name output_dir desc1 desc2 :
  is_regular_name (filename (desc_filename desc1)) = true →
  is_regular_name (filename (desc_filename desc2)) = true →
  output_path output_dir desc1 = output_path output_dir desc2
  ↔ filename (desc_filename desc1) = filename (desc_filename desc2).
Proof.
  intros H1 H2. split.
  - rewrite !output_path_shape by done. intros Heq%app_inv_head.
    by apply wb_name_inj.
  - intros Heq. unfold output_path. by rewrite Heq.
Qed.

Lemma extension_wb_name name :
  is_regular_name name = true →
  extension (stem name ++ lit "_wb" ++ extension name) = extension name.
Proof.
  intros Hreg. pose proof (wb_name_regular _ Hreg) as Hwb.
  destruct (regular_name_inv _ Hwb) as (_ & _ & Hdot).
  unfold extension at 1. rewrite (filename_regular _ Hwb), Hdot.
  rewrite (find_last_is_dot_wb _ Hreg).
  destruct (regular_name_parts _ Hreg) as [(N & _ & E) | (pos & N & _ & _)]; rewrite N.
  - by rewrite E.
  - rewrite drop_app_add'; [|done]. reflexivity.
Qed.

(** X2: for an ordinary file name the output path is three characters
    longer than [output_dir / name], keeps the extension of the input (the
    image format) and is never the input path itself. *)
Theorem output_path_keeps_extension output_dir desc :
  is_regular_name (filename (desc_filename desc)) = true →
  length (output_path output_dir desc)
  = (length (output_dir // filename (desc_filename desc)) + 3)%nat
  ∧ extension (output_path output_dir desc) = extension (desc_filename desc)
  ∧ output_path output_dir desc ≠ desc_filename desc.
Proof.
  intros Hreg. split; [apply addWb_length|].
  pose proof (wb_name_regular _ Hreg) as Hwb.
  assert (extension (output_path output_dir desc) = extension (desc_filename desc)) as Hext.
  { rewrite output_path_shape by done.
    rewrite extension_prefixed by (done || apply append_separator_shape).
    rewrite extension_wb_name by done. by apply extension_filename. }
  split; [done|]. intros Heq.
  pose proof (stem_extension (desc_filename desc)) as Hse.
  rewrite <- Heq in Hse at 3. rewrite output_path_shape in Hse by done.
  rewrite <- stem_filename, <- extension_filename in Hse by done.
  destruct (filename_prefixed (append_separator_if_needed output_dir) _ Hwb
              (append_separator_shape output_dir)) as [Hf | [Hpre Hf]];
    rewrite Hf in Hse.
  - apply (f_equal length) in Hse. rewrite !length_app in Hse. simpl in Hse. lia.
  - rewrite Hpre in Hse.
    destruct (regular_name_inv _ Hreg) as (_ & Hall & _).
    pose proof (stem_extension (desc_filename desc)) as Hname.
    rewrite <- stem_filename, <- extension_filename in Hname by done.
    rewrite <- Hname, Hse in Hall. discriminate Hall.
Qed.

(** *** Files, output and composition of a batch *)

Lemma images_txt_regular : is_regular_name (lit "images.txt") = true.
Proof. reflexivity. Qed.

Lemma output_path_not_images_txt output_dir desc :
  is_regular_name (filename (desc_filename desc)) = true →
  output_path output_dir desc ≠ output_dir // lit "images.txt".
Proof.
  intros Hreg Heq.
  rewrite output_path_shape, (path_append_regular _ _ images_txt_regular) in Heq by done.
  apply app_inv_head in Heq.
  pose proof (find_last_is_dot_wb _ Hreg) as Hdot. rewrite Heq in Hdot.
  change (find_last is_dot (lit "images.txt")) with (Some 6%nat) in Hdot.
  destruct (find_last is_dot (filename (desc_filename desc))); [|done].
  injection Hdot as Hlen.
  destruct (stem (filename (desc_filename desc))) as [|c1 [|c2 [|c3 [|c4 s]]]];
    simpl in Hlen; try lia.
  discriminate Heq.
Qed.

Lemma run_loop_frame descs size output_dir h t b border q : ∀ i acc w,
  (∀ d, d ∈ descs → q ≠ output_path output_dir d) →
  files (fst (run_loop descs i size output_dir h t b border acc w)) !! q = files w !! q.
Proof.
  induction descs as [|desc rest IH]; intros i acc w Hq; [done|].
  rewrite run_loop_step. cbv zeta.
  destruct (Image_write_ok _ _ _); [|done].
  rewrite IH by (intros d Hd; apply Hq; by right).
  simpl. apply lookup_insert_ne. intros Heq. by apply (Hq desc); [left|].
Qed.

(** X3: [run] leaves alone every file that is neither the output path of
    one of the descriptors nor the path file: its content after the batch,
    complete or aborted, is what it was before. *)
Theorem run_touches_only_outputs descs output_dir output_pathfile h t b border w q :
  q ≠ default (output_dir // lit "images.txt") output_pathfile →
  (∀ d, d ∈ descs → q ≠ output_path output_dir d) →
  files (fst (run descs output_dir output_pathfile h t b border w)) !! q = files w !! q.
Proof.
  intros Htarget Hq. unfold run.
  set (w0 := printProgress _ _ _).
  pose proof (run_loop_frame descs (length descs) output_dir h t b border q 0 [] w0 Hq)
    as Hloop.
  destruct (run_loop _ _ _ _ _ _ _ _ _ _) as [w1 [paths|]]; cbn [fst] in *; [|done].
  unfold writeOutputPathfile. destruct (ofstream_opens _ _); simpl; [|done].
  by rewrite lookup_insert_ne.
Qed.

(** X4: after a complete batch with the default path file and ordinary
    file names, the path file did not take the place of any image: every
    descriptor's output path holds an image file, whether the path file
    could be opened or not. *)
Theorem default_manifest_lists_images_on_disk descs output_dir h t b border w :
  Forall (λ d, is_regular_name (filename (desc_filename d)) = true) descs →
  let res := run descs output_dir None h t b border w in
  snd res = 0 →
  ∀ d, d ∈ descs →
    ∃ m, files (fst res) !! output_path output_dir d = Some (ImageFile m).
Proof.
  intros Hreg res Hrc. subst res. revert Hrc. unfold run.
  set (w0 := printProgress _ _ _).
  pose proof (run_loop_spec descs (length descs) output_dir h t b border 0 [] w0) as Hloop.
  cbv zeta in Hloop. destruct Hloop as [_ Hloop].
  destruct (run_loop _ _ _ _ _ _ _ _ _ _) as [w1 [paths|]]; cbn [fst snd] in *; [|done].
  intros _. destruct Hloop as (-> & _ & _ & Himages).
  intros d Hd. unfold writeOutputPathfile.
  destruct (ofstream_opens _ _); simpl; [|by apply Himages].
  rewrite lookup_insert_ne; [by apply Himages|].
  intros Heq. rewrite Forall_forall in Hreg.
  by apply (output_path_not_images_txt output_dir d); [apply Hreg|].
Qed.

(** The progress reports after the images [i], ..., [i + k - 1] of [size]. *)
Lemma run_loop_cout descs size output_dir h t b border : ∀ i acc w,
  let res := run_loop descs i size output_dir h t b border acc w in
  start_time (fst res) = start_time w
  ∧ match snd res with
    | Some _ =>
        cout (fst res)
        = cout w ++ ((λ j, OProgress (start_time w) (Z.of_nat (j + 1) # Pos.of_nat size))
                       <$> seq i (length descs))
    | None =>
        ∃ k desc, descs !! k = Some desc
        ∧ trace (fst res)
          = trace w ++ concat (image_events output_dir <$> take k descs)
            ++ [EvDecode desc; EvWriteImage (output_path output_dir desc) false]
        ∧ cout (fst res)
          = cout w ++ ((λ j, OProgress (start_time w) (Z.of_nat (j + 1) # Pos.of_nat size))
                         <$> seq i k)
    end.
Proof.
  induction descs as [|desc rest IH]; intros i acc w.
  - simpl. by rewrite app_nil_r.
  - cbv zeta. rewrite run_loop_step. cbv zeta.
    set (processed := processImage _ _ _ _ _ _).
    set (w1 := set_statics _ _).
    set (output := output_path output_dir desc).
    destruct (Image_write_ok (files w1) output (snd processed)).
    + set (w2 := printProgress _ _ _).
      specialize (IH (S i) (acc ++ [output]) w2). cbv zeta in IH.
      destruct IH as [Hstart IH]. split; [by rewrite Hstart|].
      destruct (snd (run_loop rest (S i) size output_dir h t b border
                       (acc ++ [output]) w2)) as [paths|].
      * rewrite IH. simpl. by rewrite <- app_assoc.
      * destruct IH as (k & d0 & Hk & Htr & Hout).
        exists (S k), d0. split; [done|]. split.
        { rewrite Htr. simpl. by rewrite <- !app_assoc. }
        rewrite Hout. simpl. by rewrite <- app_assoc.
    + simpl. split; [done|]. exists 0%nat, desc. split; [done|]. split.
      { by rewrite <- app_assoc. }
      by rewrite app_nil_r.
Qed.

Lemma length_image_events output_dir (l : list ImageDesc) :
  length (concat (image_events output_dir <$> l)) = (2 * length l)%nat.
Proof.
  induction l as [|x l IH]; [done|].
  cbn [fmap list_fmap concat]. rewrite length_app, IH. simpl. lia.
Qed.

Lemma progress_fraction (j n : nat) :
  (j < n)%nat →
  (0 < Z.of_nat (j + 1) # Pos.of_nat n)%Q
  ∧ (Z.of_nat (j + 1) # Pos.of_nat n <= 1)%Q
  ∧ ((Z.of_nat (j + 1) # Pos.of_nat n == 1)%Q ↔ (j + 1)%nat = n).
Proof.
  intros Hj. unfold Qlt, Qle, Qeq. cbn [Qnum Qden].
  assert (Z.pos (Pos.of_nat n) = Z.of_nat n) as -> by lia.
  repeat split; try lia.
Qed.

(** X5: what [run] prints on the standard output. A complete batch of [n]
    images reports progress 0, then [(j+1)/n] after image [j] (each
    fraction in (0, 1], the last one 1), all against one start time, and
    ends with the count [n] and the path of the path file. A batch that
    fails at index [k] stops after the report [k/n]: no count, no path. *)
Theorem run_standard_output descs output_dir output_pathfile h t b border w :
  let res := run descs output_dir output_pathfile h t b border w in
  let n := length descs in
  let report j := OProgress (clock w) (Z.of_nat (j + 1) # Pos.of_nat n) in
  let target := default (output_dir // lit "images.txt") output_pathfile in
  (∀ j, (j < n)%nat →
     (0 < Z.of_nat (j + 1) # Pos.of_nat n)%Q
     ∧ (Z.of_nat (j + 1) # Pos.of_nat n <= 1)%Q
     ∧ ((Z.of_nat (j + 1) # Pos.of_nat n == 1)%Q ↔ (j + 1)%nat = n))
  ∧ ((snd res = 0
      ∧ cout (fst res)
        = cout w ++ OProgress (clock w) 0 :: (report <$> seq 0 n)
          ++ [OEndl; OStr (lit "Add border to "); ONum n;
              OStr (lit " images. Saved new images paths to: "); OEndl;
              OStr target; OEndl])
     ∨ (snd res = 1
        ∧ ∃ k desc, descs !! k = Some desc
          ∧ cerr (fst res) = cerr w ++ write_failure (output_path output_dir desc)
          ∧ cout (fst res) = cout w ++ OProgress (clock w) 0 :: (report <$> seq 0 k))).
Proof.
  intros res n report target. split; [intros j Hj; by apply progress_fraction|].
  subst res. unfold run.
  set (w0 := printProgress _ _ _).
  pose proof (run_loop_cout descs (length descs) output_dir h t b border 0 [] w0) as Hout.
  pose proof (run_loop_spec descs (length descs) output_dir h t b border 0 [] w0) as Hspec.
  cbv zeta in Hout, Hspec. destruct Hout as [Hstart Hout]. destruct Hspec as [_ Hspec].
  destruct (run_loop _ _ _ _ _ _ _ _ _ _) as [w1 [paths|]]; cbn [fst snd] in *.
  - left. split; [done|]. destruct Hspec as (-> & _). unfold writeOutputPathfile.
    destruct (ofstream_opens _ _); simpl; rewrite Hout; simpl;
      rewrite length_fmap; by rewrite <- !app_assoc.
  - right. split; [done|].
    destruct Hout as (k & desc & Hk & Htr & Hout).
    destruct Hspec as (k' & desc' & Hk' & Htr' & Herr & _).
    assert (k' = k) as ->.
    { rewrite Htr in Htr'. apply app_inv_head in Htr'.
      apply (f_equal length) in Htr'.
      rewrite !length_app, !length_image_events, !length_take in Htr'. simpl in Htr'.
      apply lookup_lt_Some in Hk, Hk'. lia. }
    assert (desc' = desc) as -> by congruence.
    exists k, desc. split; [done|]. split; [done|].
    rewrite Hout. simpl. by rewrite <- app_assoc.
Qed.

(** X6: the loop of [run] over a list in two parts is the loop over the
    first part followed, when no write failed there, by the loop over the
    second part from the index, the paths and the files the first one
    left; a failure in the first part is the end. *)
Theorem run_loop_app descs1 descs2 size output_dir h t b border : ∀ i acc w,
  run_loop (descs1 ++ descs2) i size output_dir h t b border acc w
  = match run_loop descs1 i size output_dir h t b border acc w with
    | (w', Some paths) =>
        run_loop descs2 (i + length descs1) size output_dir h t b border paths w'
    | (w', None) => (w', None)
    end.
Proof.
  induction descs1 as [|desc rest IH]; intros i acc w.
  - simpl. by rewrite Nat.add_0_r.
  - rewrite <- app_comm_cons, !run_loop_step. cbv zeta.
    destruct (Image_write_ok _ _ _); [|done].
    rewrite IH. cbn [length].
    replace (i + S (length rest))%nat with (S i + length rest)%nat by lia. reflexivity.
Qed.

Lemma line_inj (p1 p2 rest1 rest2 : list ascii) :
  newline ∉ p1 → newline ∉ p2 →
  p1 ++ newline :: rest1 = p2 ++ newline :: rest2 → p1 = p2 ∧ rest1 = rest2.
Proof.
  revert p2. induction p1 as [|c p1 IH]; intros [|c2 p2] H1 H2 Heq; simpl in Heq.
  - by injection Heq.
  - injection Heq as <- _. exfalso. apply H2. by left.
  - injection Heq as -> _. exfalso. apply H1. by left.
  - injection Heq as -> Heq. apply not_elem_of_cons in H1 as [_ H1].
    apply not_elem_of_cons in H2 as [_ H2].
    destruct (IH p2 H1 H2 Heq) as [-> ->]. done.
Qed.

Lemma lines_inj (paths1 paths2 : list (list ascii)) :
  Forall (λ p, newline ∉ p) paths1 → Forall (λ p, newline ∉ p) paths2 →
  concat ((λ p, p ++ [newline]) <$> paths1) = concat ((λ p, p ++ [newline]) <$> paths2) →
  paths1 = paths2.
Proof.
  intros H1. revert paths2. induction H1 as [|p1 paths1 Hp1 _ IH]; intros paths2 H2 Heq.
  - destruct H2 as [|p2 paths2 _ _]; [done|]. simpl in Heq.
    by destruct p2.
  - destruct H2 as [|p2 paths2 Hp2 H2]; simpl in Heq.
    { by destruct p1. }
    rewrite <- !app_assoc in Heq. simpl in Heq.
    destruct (line_inj _ _ _ _ Hp1 Hp2 Heq) as [-> Hrest].
    f_equal. by apply IH.
Qed.

(** X7: a path file that could be opened determines the list of paths
    written to it, as long as no path holds a newline: two lists that
    leave the same file are the same list. *)
Theorem path_file_determines_paths pathfile paths1 paths2 w1 w2 :
  ofstream_opens (files w1) pathfile = true →
  ofstream_opens (files w2) pathfile = true →
  Forall (λ p, newline ∉ p) paths1 → Forall (λ p, newline ∉ p) paths2 →
  files (writeOutputPathfile pathfile paths1 w1) !! pathfile
  = files (writeOutputPathfile pathfile paths2 w2) !! pathfile →
  paths1 = paths2.
Proof.
  intros Hopen1 Hopen2 H1 H2. unfold writeOutputPathfile. rewrite Hopen1, Hopen2.
  simpl. rewrite !lookup_insert_eq. intros [= Heq].
  by apply lines_inj.
Qed.


(** *** Sizes and values of the stages *)

Lemma saturate_cast_range v : is_uchar (saturate_cast v).
Proof.
  unfold saturate_cast, is_uchar.
  destruct (0 <=? v) eqn:E1, (v <=? 255) eqn:E2, (0 <? v) eqn:E3; simpl; lia.
Qed.

Lemma pixel_zip_with_inv (f : Z → Z → Z) (a b : Mat) r c v :
  pixel (zip_with (zip_with f) a b) r c = Some v →
  ∃ x y, pixel a r c = Some x ∧ pixel b r c = Some y ∧ v = f x y.
Proof.
  unfold pixel. intros Hv.
  apply bind_Some in Hv as (row & Hrow & Hv).
  apply lookup_zip_with_Some in Hrow as (ra & rb & -> & Hra & Hrb).
  apply lookup_zip_with_Some in Hv as (x & y & -> & Hx & Hy).
  exists x, y. rewrite Hra, Hrb. done.
Qed.

(** X9: every pixel of the blended output of [adaptiveTresholding] is an
    8-bit value between the original pixel and the value of the mask
    there, which is 0 or 255: the blend darkens what the mask leaves out
    and brightens what it marks. *)
Theorem blend_between_original_and_mask st mat r c v :
  statics_ok st →
  pixel (snd (adaptiveTresholding st mat false)) r c = Some v →
  ∃ o m, pixel mat r c = Some o
    ∧ pixel (snd (adaptiveTresholding st mat true)) r c = Some m
    ∧ (m = 0 ∨ m = 255)
    ∧ is_uchar v
    ∧ (is_uchar o → (m = 0 → v <= o) ∧ (m = 255 → o <= v)).
Proof.
  intros Hst. unfold adaptiveTresholding. rewrite (statics_ok_default _ Hst).
  cbn [fst snd max_value block_size weight_original weight_threshold
       adaptive_statics_init].
  intros Hv. unfold addWeighted in Hv.
  apply pixel_zip_with_inv in Hv as (o & m & Ho & Hm & ->).
  exists o, m. split; [done|]. split; [done|].
  assert (m = 0 ∨ m = 255) as Hmask.
  { unfold adaptiveThreshold in Hm.
    apply pixel_zip_with_inv in Hm as (s & mean & _ & _ & ->).
    change (saturate_cast (cvRound 255)) with 255.
    destruct (_ <? _); auto. }
  split; [done|]. split; [apply saturate_cast_range|].
  intros Hu.
  assert (is_uchar m) as Hmu by (unfold is_uchar; destruct Hmask; lia).
  rewrite saturate_cast_uchar by (apply cvRound_uchar, blend_uchar; done).
  pose proof (cvRound_nearest ((7 # 10) * inject_Z o + (3 # 10) * inject_Z m)) as Hnear.
  apply within_half_of_blend in Hnear.
  rewrite (cvRound_comp _ ((7 # 10) * inject_Z o + (3 # 10) * inject_Z m)) by ring.
  unfold is_uchar in Hu. split; intros ->; lia.
Qed.

Lemma zip_with_shape (f : Z → Z → Z) (a b : Mat) nr nc :
  has_shape a nr nc → has_shape b nr nc → has_shape (zip_with (zip_with f) a b) nr nc.
Proof.
  intros [Hla Ha] [Hlb Hb]. split.
  - rewrite length_zip_with. lia.
  - apply Forall_lookup. intros i row Hrow.
    apply lookup_zip_with_Some in Hrow as (ra & rb & -> & Hra & Hrb).
    rewrite Forall_lookup in Ha, Hb.
    rewrite length_zip_with, (Ha _ _ Hra), (Hb _ _ Hrb). lia.
Qed.

Lemma copyMakeBorder_shape src top bottom left right nr nc :
  0 <= top → 0 <= bottom → 0 <= left → 0 <= right → (0 < nr)%nat →
  has_shape src nr nc →
  has_shape (copyMakeBorder src top bottom left right)
    (Z.to_nat top + nr + Z.to_nat bottom) (Z.to_nat left + nc + Z.to_nat right).
Proof.
  intros Ht Hb Hl Hr Hnr [Hlen Hrows]. split.
  - by rewrite copyMakeBorder_length, Hlen.
  - apply Forall_lookup. intros i row Hi.
    assert (i < length (copyMakeBorder src top bottom left right))%nat as Hlt
      by (by eapply lookup_lt_Some).
    rewrite copyMakeBorder_length in Hlt.
    rewrite copyMakeBorder_row in Hi by lia.
    apply fmap_Some in Hi as (row0 & Hrow0 & ->).
    rewrite replicate_border_length.
    rewrite Forall_lookup in Hrows. by rewrite (Hrows _ _ Hrow0).
Qed.

(** X10: the size of what [processImage] returns. With filters that keep
    the size of their input, a non-empty [nr] x [nc] buffer comes out
    [nr] x [nc] without the border and with [TAG_HEIGHT / 2] more rows on
    top and bottom and [TAG_WIDTH / 2] more columns left and right with
    it, whatever the other flags: for an odd constant that is one less
    than the constant. *)
Theorem processImage_shape st mat nr nc h t b border :
  (∀ method blockSize m r c,
     has_shape m r c → has_shape (local_mean method blockSize m) r c) →
  (∀ clip tile m r c, has_shape m r c → has_shape (CLAHE_apply clip tile m) r c) →
  0 <= TAG_HEIGHT → 0 <= TAG_WIDTH → (0 < nr)%nat →
  has_shape mat nr nc →
  has_shape (snd (processImage st mat h t b border))
    (if border then Z.to_nat (TAG_HEIGHT ÷ 2) + nr + Z.to_nat (TAG_HEIGHT ÷ 2) else nr)
    (if border then Z.to_nat (TAG_WIDTH ÷ 2) + nc + Z.to_nat (TAG_WIDTH ÷ 2) else nc).
Proof.
  intros Hmean Hclahe Hh Hw Hnr Hmat. unfold processImage.
  set (nr' := if border then _ else nr). set (nc' := if border then _ else nc).
  assert (has_shape (if border then makeBorder mat else mat) nr' nc') as Hbordered.
  { subst nr' nc'. destruct border; [|done]. unfold makeBorder.
    apply copyMakeBorder_shape; try done; apply Z.quot_pos; lia. }
  assert (has_shape (if h
                     then localHistogramEq (if border then makeBorder mat else mat)
                     else if border then makeBorder mat else mat) nr' nc') as Hstaged.
  { destruct h; [|done]. by apply Hclahe. }
  destruct t; [|done]. unfold adaptiveTresholding. cbn [snd].
  assert (∀ s, has_shape
            (adaptiveThreshold
               (if h then localHistogramEq (if border then makeBorder mat else mat)
                else if border then makeBorder mat else mat)
               (max_value s) ADAPTIVE_THRESH_GAUSSIAN_C THRESH_BINARY (block_size s) 0)
            nr' nc') as Hmask.
  { intros s. unfold adaptiveThreshold. apply zip_with_shape; [done|]. by apply Hmean. }
  destruct b; [apply Hmask|]. unfold addWeighted. by apply zip_with_shape.
Qed.

End Preprocess.

(** ** The claims on the sample batch *)

(** An odd tag height loses a row of margin. *)
Example makeBorder_odd_tag_height : length (makeBorder 3 3 [[7]]) = 3%nat.
Proof. reflexivity. Qed.

(** C1: the write of [out/b_wb.png] fails; [run] returns 1 and names the
    path on [std::cerr], but [main] drops what [run] returns: its status
    is 0, there and on every other command line. *)
Theorem main_discards_run_status :
  (∀ TAG_WIDTH TAG_HEIGHT local_mean CLAHE_apply Image_load Image_write_ok
     ofstream_opens fromPathFile vm w,
     snd (main TAG_WIDTH TAG_HEIGHT local_mean CLAHE_apply Image_load Image_write_ok
            ofstream_opens fromPathFile vm w) = 0)
  ∧ let batch :=
      run 2 4 sample_mean sample_clahe sample_load second_write_fails every_stream_opens
        sample_descs (lit "out") None false true true true world0 in
    let process :=
      main 2 4 sample_mean sample_clahe sample_load second_write_fails every_stream_opens
        sample_fromPathFile sample_vm world0 in
    snd batch = 1
    ∧ cerr (fst batch) = write_failure (lit "out/b_wb.png")
    ∧ fst process = fst batch
    ∧ snd process = 0.
Proof.
  split; [intros; apply main_status|].
  cbv zeta. split; [by vm_compute|]. split; [by vm_compute|].
  split; [|by vm_compute]. unfold main. cbn [sample_vm vm_help vm_pathfile vm_output_dir
    vm_output_pathfile vm_use_hist_eq vm_use_threshold vm_binary_image vm_border
    sample_fromPathFile].
  by destruct (run _ _ _ _ _ _ _ _ _ _ _ _ _ _ _).
Qed.

Lemma write_failure_aborts_batch_witness :
  let res :=
    run 2 4 sample_mean sample_clahe sample_load second_write_fails every_stream_opens
      sample_descs (lit "out") None false false false true world0 in
  let evs := trace (fst res) in
  (trace (fst res) = trace world0 ++ evs ∧ write_results evs !! 1%nat = Some false)
  ∧ ∃ desc, sample_descs !! 1%nat = Some desc
      ∧ snd res = 1
      ∧ evs = EvCreateDirectories (lit "out")
              :: concat (image_events (lit "out") <$> take 1 sample_descs)
              ++ [EvDecode desc; EvWriteImage (output_path (lit "out") desc) false]
      ∧ (∀ q content, files (fst res) !! q = Some (TextFile content) →
           files world0 !! q = Some (TextFile content))
      ∧ (∀ j d, (j < 1)%nat → sample_descs !! j = Some d →
           ∃ m, files (fst res) !! output_path (lit "out") d = Some (ImageFile m))
      ∧ cerr (fst res) = cerr world0 ++ write_failure (output_path (lit "out") desc).
Proof.
  cbv zeta. split; [split; vm_compute; reflexivity|].
  apply (write_failure_aborts_batch 2 4 sample_mean sample_clahe sample_load
           second_write_fails every_stream_opens sample_descs (lit "out") None false false false true
           world0 _ 1%nat); vm_compute; reflexivity.
Defined.





(** C10 when the path file cannot be opened: the empty batch returns 0
    and leaves no file. *)
Lemma empty_batch_without_path_file :
  let res :=
    run 2 4 sample_mean sample_clahe sample_load every_write_succeeds missing_directory
      [] (lit "out") (Some (lit "missing/list.txt")) false false false true world0 in
  snd res = 0
  ∧ files (fst res) !! lit "missing/list.txt" = None
  ∧ trace (fst res)
    = [EvCreateDirectories (lit "out"); EvWritePathfile (lit "missing/list.txt") false].
Proof. cbv zeta. split; [|split]; vm_compute; reflexivity. Qed.

Lemma makeBorder_replicates_edges_witness :
  let out := makeBorder 2 4 sample_mat in
  (0 <= 4 ∧ 0 <= 2 ∧ Z.even 4 = true ∧ Z.even 2 = true
   ∧ (0 < 2)%nat ∧ length sample_mat = 2%nat
   ∧ Forall (λ row, length row = 2%nat) sample_mat)
  ∧ Z.of_nat (length out) = 6
  ∧ Forall (λ row, Z.of_nat (length row) = 4) out
  ∧ pixel out 0 0 = Some 10 ∧ pixel out 5 3 = Some 40 ∧ pixel out 2 2 = Some 200.
Proof.
  cbv zeta.
  assert (Forall (λ row, length row = 2%nat) sample_mat) as Hrows
    by (repeat constructor).
  split; [repeat split; try lia; try reflexivity; exact Hrows|].
  destruct (makeBorder_replicates_edges 2 4 sample_mat 2 2) as (Hlen & Hcols & _ & _);
    [lia | lia | reflexivity | reflexivity | lia | lia | reflexivity | exact Hrows |].
  split; [exact Hlen|]. split; [exact Hcols|]. repeat split; reflexivity.
Defined.

Lemma adaptiveTresholding_mask_or_blend_witness :
  (statics_ok None ∧ is_uchar 200 ∧ pixel sample_mat 0 1 = Some 200
   ∧ pixel (sample_mean ADAPTIVE_THRESH_GAUSSIAN_C 51 sample_mat) 0 1 = Some 100)
  ∧ pixel (snd (adaptiveTresholding sample_mean None sample_mat true)) 0 1 = Some 255
  ∧ ∃ v, pixel (snd (adaptiveTresholding sample_mean None sample_mat false)) 0 1 = Some v
      ∧ Z.abs (10 * v - (7 * 200 + 3 * 255)) <= 5.
Proof.
  assert (is_uchar 200) as Hu by (unfold is_uchar; lia).
  split; [repeat split; try (by left); try reflexivity; apply Hu|].
  destruct (adaptiveTresholding_mask_or_blend sample_mean None sample_mat 0 1 200 100)
    as (Hmask & Hbin & v & Hv & _ & Hnear);
    [by left | exact Hu | reflexivity | reflexivity |].
  split; [rewrite Hbin; exact Hmask|]. exists v. split; [exact Hv | exact Hnear].
Defined.

Lemma binary_image_forces_threshold_witness :
  let res := main 2 4 sample_mean sample_clahe sample_load every_write_succeeds
               every_stream_opens sample_fromPathFile sample_vm world0 in
  (vm_help sample_vm = false ∧ vm_pathfile sample_vm = [lit "paths.txt"]
   ∧ vm_output_dir sample_vm = Some (lit "out") ∧ vm_binary_image sample_vm = true
   ∧ vm_use_threshold sample_vm = false
   ∧ statics_ok (statics world0)
   ∧ trace (fst res) = trace world0 ++ trace (fst res)
   ∧ EvWriteImage (lit "out/a_wb.png") true ∈ trace (fst res)
   ∧ lit "out/a_wb.png" ≠ lit "out/images.txt")
  ∧ res
    = (fst (run 2 4 sample_mean sample_clahe sample_load every_write_succeeds
              every_stream_opens sample_descs (lit "out") None false true true true
              world0), 0)
  ∧ ∃ m, files (fst res) !! lit "out/a_wb.png" = Some (ImageFile m) ∧ binary_mat m.
Proof.
  cbv zeta.
  assert (EvWriteImage (lit "out/a_wb.png") true
          ∈ trace (fst (main 2 4 sample_mean sample_clahe sample_load
                          every_write_succeeds every_stream_opens sample_fromPathFile
                          sample_vm world0))) as Hin.
  { assert (trace (fst (main 2 4 sample_mean sample_clahe sample_load
                          every_write_succeeds every_stream_opens sample_fromPathFile
                          sample_vm world0))
            = EvCreateDirectories (lit "out")
              :: concat (image_events (lit "out") <$> sample_descs)
              ++ [EvWritePathfile (lit "out/images.txt") true]) as ->
      by (vm_compute; reflexivity).
    apply list_elem_of_further, list_elem_of_further, list_elem_of_here. }
  assert (lit "out/a_wb.png" ≠ lit "out/images.txt") as Hne by discriminate.
  split.
  { repeat split; try reflexivity; [by left | exact Hin | exact Hne]. }
  destruct (binary_image_forces_threshold 2 4 sample_mean sample_clahe sample_load
              every_write_succeeds every_stream_opens sample_fromPathFile sample_vm
              world0 (lit "paths.txt") [] (lit "out") _
              eq_refl eq_refl eq_refl eq_refl (or_introl eq_refl) eq_refl)
    as (Hmain & _ & _ & Hwritten & _).
  split; [exact Hmain|]. exact (Hwritten _ Hin Hne).
Defined.



(** A root name keeps its extension under a directory as well. *)
Example root_name_keeps_extension :
  filename (lit "//a.png") = lit "//a.png"
  ∧ extension (lit "out" // filename (lit "//a.png")) = extension (lit "//a.png")
  ∧ output_path (lit "out") {| desc_filename := lit "//a.png" |} = lit "out//a_wb.png".
Proof. repeat split; reflexivity. Qed.

Lemma missing_configuration_prints_usage_witness :
  (vm_pathfile no_pathfile_vm = [] ∨ vm_output_dir no_pathfile_vm = None)
  ∧ let res := main 2 4 sample_mean sample_clahe sample_load every_write_succeeds every_stream_opens
                 sample_fromPathFile no_pathfile_vm world0 in
    snd res = 0
    ∧ files (fst res) = files world0
    ∧ trace (fst res) = trace world0
    ∧ cerr (fst res) = cerr world0
    ∧ ∃ before, cout (fst res) = cout world0 ++ before ++ usage.
Proof.
  split; [by left|].
  apply (missing_configuration_prints_usage 2 4 sample_mean sample_clahe sample_load
           every_write_succeeds every_stream_opens sample_fromPathFile no_pathfile_vm world0).
  by left.
Defined.

(** ** Display conversion *)

Lemma fill_color_table_empty :
  fill_color_table [] = (λ i, qRgb i i i) <$> seqZ 0 256.
Proof. vm_compute. reflexivity. Qed.

Lemma gray_entries :
  Forall (λ v, qRed (qRgb v v v) = v ∧ qGreen (qRgb v v v) = v
               ∧ qBlue (qRgb v v v) = v ∧ qAlpha (qRgb v v v) = 255)
    (seqZ 0 256).
Proof. apply (bool_decide_unpack _). vm_compute. exact I. Qed.

(** X11: the first 8-bit single-channel matrix given to [cvMatToQImage]
    fills the static colour table with 256 entries, entry [v] the opaque
    gray of intensity [v]; the image gets that table and nothing is
    warned about; no later call, of whatever matrix type, changes the
    table. *)
Theorem gray_color_table_built_once {QImage} `{QImageOps QImage} (inMat other : CvMat) :
  mat_type inMat = CV_8UC1 →
  let result := cvMatToQImage [] inMat in
  let table := fst (fst result) in
  length table = 256%nat
  ∧ (∀ v, 0 <= v < 256 →
       ∃ c, table !! Z.to_nat v = Some c
         ∧ qRed c = v ∧ qGreen c = v ∧ qBlue c = v ∧ qAlpha c = 255)
  ∧ snd (fst result) = []
  ∧ snd result
    = setColorTable
        (QImage_of_data (mat_data inMat) (mat_cols inMat) (mat_rows inMat)
           (mat_step inMat) Format_Indexed8) table
  ∧ fst (fst (cvMatToQImage table other)) = table.
Proof.
  intros Htype.
  assert (cvMatToQImage [] inMat
          = ((λ i, qRgb i i i) <$> seqZ 0 256, [],
             setColorTable
               (QImage_of_data (mat_data inMat) (mat_cols inMat) (mat_rows inMat)
                  (mat_step inMat) Format_Indexed8)
               ((λ i, qRgb i i i) <$> seqZ 0 256))) as Hresult.
  { unfold cvMatToQImage. rewrite Htype.
    change (bool_decide (CV_8UC1 = CV_8UC4)) with false.
    change (bool_decide (CV_8UC1 = CV_8UC3)) with false.
    change (bool_decide (CV_8UC1 = CV_8UC1)) with true.
    change (bool_decide (@nil Z = [])) with true. cbv iota.
    by rewrite fill_color_table_empty. }
  cbv zeta. rewrite Hresult. cbn [fst snd].
  split; [by rewrite length_fmap, length_seqZ|]. split.
  - intros v Hv. exists (qRgb v v v). split.
    + rewrite list_lookup_fmap, lookup_seqZ_lt by lia. simpl. do 4 f_equal; lia.
    + pose proof gray_entries as Hall. rewrite Forall_forall in Hall.
      apply Hall. apply elem_of_seqZ. lia.
  - split; [done|]. split; [done|].
    unfold cvMatToQImage.
    destruct (bool_decide (mat_type other = CV_8UC4)); [done|].
    destruct (bool_decide (mat_type other = CV_8UC3)); [done|].
    destruct (bool_decide (mat_type other = CV_8UC1)); [|done].
    cbn [fst]. rewrite bool_decide_eq_false_2; [done|].
    intros Hnil. apply (f_equal length) in Hnil.
    rewrite length_fmap, length_seqZ in Hnil. discriminate Hnil.
Qed.

Lemma gray_color_table_built_once_witness :
  mat_type sample_gray_mat = CV_8UC1
  ∧ let result := cvMatToQImage (QImage := SampleImage) [] sample_gray_mat in
    length (fst (fst result)) = 256%nat
    ∧ fst (fst result) !! 200%nat = Some (qRgb 200 200 200)
    ∧ snd result = Some (Format_Indexed8, [10; 200; 30; 40], fst (fst result))
    ∧ fst (fst (cvMatToQImage (QImage := SampleImage) (fst (fst result)) sample_gray_mat))
      = fst (fst result).
Proof.
  split; [reflexivity|]. cbv zeta.
  destruct (gray_color_table_built_once (QImage := SampleImage) sample_gray_mat
              sample_gray_mat eq_refl) as (Hlen & _ & _ & Himage & Hstable).
  split; [exact Hlen|]. split; [reflexivity|]. split; [exact Himage | exact Hstable].
Defined.

(** ** The further properties on the sample batch *)

Lemma sample_mean_shape method blockSize m r c :
  has_shape m r c → has_shape (sample_mean method blockSize m) r c.
Proof.
  intros [Hlen Hrows]. split; [by unfold sample_mean; rewrite length_fmap|].
  unfold sample_mean. apply Forall_fmap. eapply Forall_impl; [exact Hrows|].
  intros row Hrow. simpl. by rewrite length_fmap.
Qed.

Lemma sample_clahe_shape clip tile m r c :
  has_shape m r c → has_shape (sample_clahe clip tile m) r c.
Proof. done. Qed.

Lemma sample_mat_shape : has_shape sample_mat 2 2.
Proof. split; [reflexivity | repeat constructor]. Qed.

Lemma sample_descs_regular :
  Forall (λ d, is_regular_name (filename (desc_filename d)) = true) sample_descs.
Proof. repeat constructor. Qed.

Lemma output_paths_collide_iff_same_name_witness :
  let desc1 := {| desc_filename := lit "data/cam0/a.png" |} in
  let desc2 := {| desc_filename := lit "data/cam1/a.png" |} in
  (is_regular_name (filename (desc_filename desc1)) = true
   ∧ is_regular_name (filename (desc_filename desc2)) = true)
  ∧ output_path (lit "out") desc1 = output_path (lit "out") desc2.
Proof.
  cbv zeta. split; [split; reflexivity|].
  apply (output_paths_collide_iff_same_name (lit "out")
           {| desc_filename := lit "data/cam0/a.png" |}
           {| desc_filename := lit "data/cam1/a.png" |} eq_refl eq_refl).
  reflexivity.
Defined.

Lemma output_path_keeps_extension_witness :
  let desc := {| desc_filename := lit "data/cam0/a.png" |} in
  is_regular_name (filename (desc_filename desc)) = true
  ∧ length (output_path (lit "out") desc) = 12%nat
  ∧ extension (output_path (lit "out") desc) = lit ".png"
  ∧ output_path (lit "out") desc ≠ desc_filename desc.
Proof.
  cbv zeta. split; [reflexivity|].
  destruct (output_path_keeps_extension (lit "out")
              {| desc_filename := lit "data/cam0/a.png" |} eq_refl)
    as (Hlen & Hext & Hne).
  split; [rewrite Hlen; reflexivity|]. split; [rewrite Hext; reflexivity | exact Hne].
Defined.

Lemma run_touches_only_outputs_witness :
  let q := lit "data/cam0/a.png" in
  (q ≠ default (lit "out" // lit "images.txt") None
   ∧ ∀ d, d ∈ sample_descs → q ≠ output_path (lit "out") d)
  ∧ files (fst (run 2 4 sample_mean sample_clahe sample_load second_write_fails every_stream_opens
                  sample_descs (lit "out") None false false false true
                  world_with_input)) !! q
    = Some (ImageFile sample_mat).
Proof.
  cbv zeta.
  assert (lit "data/cam0/a.png" ≠ default (lit "out" // lit "images.txt") None) as Htarget.
  { intros E. vm_compute in E. discriminate E. }
  assert (∀ d, d ∈ sample_descs → lit "data/cam0/a.png" ≠ output_path (lit "out") d)
    as Houtputs.
  { intros d Hd E. unfold sample_descs in Hd.
    repeat (apply elem_of_cons in Hd as [-> | Hd];
            [vm_compute in E; discriminate E|]).
    by apply elem_of_nil in Hd. }
  split; [split; [exact Htarget | exact Houtputs]|].
  rewrite (run_touches_only_outputs 2 4 sample_mean sample_clahe sample_load
             second_write_fails every_stream_opens sample_descs (lit "out") None false false false true
             world_with_input (lit "data/cam0/a.png") Htarget Houtputs).
  reflexivity.
Defined.

Lemma default_manifest_lists_images_on_disk_witness :
  let res := run 2 4 sample_mean sample_clahe sample_load every_write_succeeds
               every_stream_opens sample_descs (lit "out") None
               false false false true world0 in
  (Forall (λ d, is_regular_name (filename (desc_filename d)) = true) sample_descs
   ∧ snd res = 0)
  ∧ (∀ d, d ∈ sample_descs →
       ∃ m, files (fst res) !! output_path (lit "out") d = Some (ImageFile m))
  ∧ ∃ content, files (fst res) !! lit "out/images.txt" = Some (TextFile content).
Proof.
  cbv zeta. split; [split; [exact sample_descs_regular | vm_compute; reflexivity]|].
  split; [|eexists; vm_compute; reflexivity].
  apply (default_manifest_lists_images_on_disk 2 4 sample_mean sample_clahe sample_load
           every_write_succeeds every_stream_opens sample_descs (lit "out")
           false false false true world0 sample_descs_regular).
  vm_compute. reflexivity.
Defined.

Lemma path_file_determines_paths_witness :
  let paths := [lit "out/a_wb.png"; lit "out/b_wb.png"] in
  (every_stream_opens (files world0) (lit "out/images.txt") = true
   ∧ every_stream_opens (files world_with_input) (lit "out/images.txt") = true
   ∧ Forall (λ p, newline ∉ p) paths
   ∧ files (writeOutputPathfile every_stream_opens (lit "out/images.txt") paths world0)
       !! lit "out/images.txt"
     = files (writeOutputPathfile every_stream_opens (lit "out/images.txt") paths
                world_with_input)
         !! lit "out/images.txt")
  ∧ paths = paths.
Proof.
  cbv zeta.
  assert (Forall (λ p, newline ∉ p) [lit "out/a_wb.png"; lit "out/b_wb.png"]) as Hlines.
  { repeat constructor; apply (bool_decide_unpack _); vm_compute; exact I. }
  assert (files (writeOutputPathfile every_stream_opens (lit "out/images.txt")
                   [lit "out/a_wb.png"; lit "out/b_wb.png"] world0)
            !! lit "out/images.txt"
          = files (writeOutputPathfile every_stream_opens (lit "out/images.txt")
                     [lit "out/a_wb.png"; lit "out/b_wb.png"] world_with_input)
              !! lit "out/images.txt") as Hsame
    by (vm_compute; reflexivity).
  split; [split; [reflexivity|split; [reflexivity|split; [exact Hlines | exact Hsame]]]|].
  exact (path_file_determines_paths every_stream_opens (lit "out/images.txt") _ _
           world0 world_with_input eq_refl eq_refl Hlines Hlines Hsame).
Defined.

Lemma blend_between_original_and_mask_witness :
  (statics_ok None
   ∧ pixel (snd (adaptiveTresholding sample_mean None sample_mat false)) 0 1 = Some 216)
  ∧ ∃ o m, pixel sample_mat 0 1 = Some o
      ∧ pixel (snd (adaptiveTresholding sample_mean None sample_mat true)) 0 1 = Some m
      ∧ (m = 0 ∨ m = 255)
      ∧ is_uchar 216
      ∧ (is_uchar o → (m = 0 → 216 <= o) ∧ (m = 255 → o <= 216)).
Proof.
  assert (pixel (snd (adaptiveTresholding sample_mean None sample_mat false)) 0 1
          = Some 216) as Hpixel by (vm_compute; reflexivity).
  split; [split; [by left | exact Hpixel]|].
  exact (blend_between_original_and_mask sample_mean None sample_mat 0 1 216
           (or_introl eq_refl) Hpixel).
Defined.

Lemma processImage_shape_witness :
  ((∀ method blockSize m r c,
      has_shape m r c → has_shape (sample_mean method blockSize m) r c)
   ∧ (∀ clip tile m r c, has_shape m r c → has_shape (sample_clahe clip tile m) r c)
   ∧ 0 <= 3 ∧ 0 <= 4 ∧ (0 < 2)%nat ∧ has_shape sample_mat 2 2)
  ∧ has_shape (snd (processImage 4 3 sample_mean sample_clahe None sample_mat
                      true true false true)) 4 6.
Proof.
  split.
  { split; [exact sample_mean_shape|]. split; [exact sample_clahe_shape|].
    split; [lia|]. split; [lia|]. split; [lia | exact sample_mat_shape]. }
  apply (processImage_shape 4 3 sample_mean sample_clahe None sample_mat 2 2
           true true false true sample_mean_shape sample_clahe_shape);
    [lia | lia | lia | exact sample_mat_shape].
Defined.

(** A path with a newline in it is why the lines of a path file need
    not be its paths. *)
Example path_with_newline_splits :
  files (writeOutputPathfile every_stream_opens (lit "images.txt") [lit "a" ++ [newline] ++ lit "b"] world0)
    !! lit "images.txt"
  = files (writeOutputPathfile every_stream_opens (lit "images.txt") [lit "a"; lit "b"] world0)
      !! lit "images.txt".
Proof. vm_compute. reflexivity. Qed.
